(** * CCS08 signature-based range proof (zkrangeproof/ccs08.go)

    A shallow embedding of [ccs08.go] and the properties of its
    specification.  The Go functions are translated one by one and keep
    their names.  Run-time panics of Go (negative [make] length, division
    by zero, index out of range, nil dereference) are explicit: every
    function returns an [outcome].  The [(value, error)] pairs of the Go
    signatures are kept as pairs. *)

From Stdlib Require Import ZArith Lia Strings.Byte Strings.String.
From stdpp Require Import base tactics option list list_numbers numbers.
From stdpp Require Import strings pretty gmap.

Local Open Scope Z_scope.

(** ** Run-time model *)

(** The Go run-time panics that [ccs08.go] can reach. *)
Inductive panic : Type :=
  | MakeSliceLenOutOfRange   (* make([]T, l, l) with l < 0 *)
  | DivisionByZero           (* big.Int Mod / Div by zero *)
  | IndexOutOfRange          (* s[i] with i outside the slice *)
  | NilDereference.          (* method call through a nil pointer *)

(** The result of running a Go function: it returns, or it panics. *)
Inductive outcome (A : Type) : Type :=
  | Returned (a : A)
  | Panicked (why : panic).
Global Arguments Returned {A} a.
Global Arguments Panicked {A} why.

Global Instance outcome_ret : MRet outcome := @Returned.
Global Instance outcome_bind : MBind outcome := λ A B f m,
  match m with
  | Returned a => f a
  | Panicked why => Panicked why
  end.
Global Instance outcome_fmap : FMap outcome := λ A B f m,
  match m with
  | Returned a => Returned (f a)
  | Panicked why => Panicked why
  end.

(** Go's [error] interface value; [None] is [nil]. *)
Inductive error_value : Type :=
  | ErrRange                 (* a "value out of range" failure *)
  | ErrOther.                (* any other non-nil error *)
Definition error : Type := option error_value.
Definition nil_error : error := None.

(** A Go pointer [*T]: [None] is the nil pointer. *)
Abbreviation ptr A := (option A).

Definition deref {A} (p : ptr A) : outcome A :=
  match p with
  | Some a => Returned a
  | None => Panicked NilDereference
  end.

(** [make([]T, l, l)]: panics on a negative length, otherwise [l] zero
    values. *)
Definition make_slice {A} (zero : A) (l : Z) : outcome (list A) :=
  if decide (l < 0) then Panicked MakeSliceLenOutOfRange
  else Returned (replicate (Z.to_nat l) zero).

(** [s[i] = x] *)
Definition slice_set {A} (s : list A) (i : Z) (x : A) : outcome (list A) :=
  if decide (0 ≤ i < Z.of_nat (length s))
  then Returned (<[Z.to_nat i := x]> s)
  else Panicked IndexOutOfRange.

(** [s[i]] *)
Definition slice_get {A} (s : list A) (i : Z) : outcome A :=
  if decide (0 ≤ i)
  then match s !! Z.to_nat i with
       | Some x => Returned x
       | None => Panicked IndexOutOfRange
       end
  else Panicked IndexOutOfRange.

(** [for i = start; ...; i++ { body }] run for [n] iterations over a loop
    state. *)
Fixpoint for_range {S} (body : Z → S → outcome S) (i : Z) (n : nat) (s : S)
  : outcome S :=
  match n with
  | O => Returned s
  | S n' => s' ← body i s; for_range body (i + 1) n' s'
  end.

(** [for i = 0; i < l; i++ { body }]: the counter is an int64 that starts
    at 0 and stops at [l], so the body runs [Z.to_nat l] times and the
    increment never overflows. *)
Definition for_lt {S} (body : Z → S → outcome S) (l : Z) (s : S) : outcome S :=
  for_range body 0 (Z.to_nat l) s.

(** ** Integers *)

Definition MaxInt64 : Z := 2 ^ 63 - 1.
Definition MinInt64 : Z := - 2 ^ 63.
Definition is_int64 (z : Z) : Prop := MinInt64 ≤ z ≤ MaxInt64.

(** [Int64] of math/big: the low 64 bits read as a signed integer. *)
Definition Int64 (z : Z) : Z := (z + 2 ^ 63) mod 2 ^ 64 - 2 ^ 63.

(** Euclidean division and modulus of math/big ([Div], [Mod]): the
    remainder is never negative, whatever the sign of the divisor. *)
Definition euclid_div (x y : Z) : Z := Z.sgn y * (x / Z.abs y).
Definition euclid_mod (x y : Z) : Z := x mod Z.abs y.

(** [new(big.Int).Div(x, y)]; panics when [y] is zero. *)
Definition big_Div (x y : Z) : outcome Z :=
  if decide (y = 0) then Panicked DivisionByZero
  else Returned (euclid_div x y).

(** Modelled from the spec: [Mod] of util.go, which is not under src/:
    "reduction modulo" of arbitrary precision integers, that is math/big's
    Euclidean modulus; panics when the modulus is zero. *)
Definition Mod (base modulo : Z) : outcome Z :=
  if decide (modulo = 0) then Panicked DivisionByZero
  else Returned (euclid_mod base modulo).

(** Modelled from the spec: [Sub] and [Multiply] of util.go, which are not
    under src/: subtraction and multiplication of arbitrary precision
    integers. *)
Definition Sub (x y : Z) : Z := x - y.
Definition Multiply (x y : Z) : Z := x * y.

(** ** Decompose *)

(** One round of the loop of [Decompose]; the loop state is [(result, x)]. *)
Definition Decompose_body (u : Z) (i : Z) (st : list Z * Z)
  : outcome (list Z * Z) :=
  d ← Mod st.2 u;
  result ← slice_set st.1 i (Int64 d);
  x ← big_Div st.2 u;
  mret (result, x).

Definition Decompose (x : Z) (u l : Z) : outcome (list Z * error) :=
  result ← make_slice 0 l;
  st ← for_lt (Decompose_body u) l (result, x);
  mret (st.1, nil_error).

(** The base-[u] digits of [x], least significant first, as arithmetic
    defines them. *)
Fixpoint digits (n : nat) (u x : Z) : list Z :=
  match n with
  | O => []
  | S n' => x mod u :: digits n' u (x / u)
  end.

Definition Zsum (l : list Z) : Z := foldr Z.add 0 l.

(** Σ digit_i · u^i *)
Definition positional_sum (u : Z) (ds : list Z) : Z :=
  Zsum (imap (λ i d, d * u ^ Z.of_nat i) ds).

(** ** Bytes, strings and SHA-256 *)

Global Instance byte_eq_decision : EqDecision byte := Byte.byte_eq_dec.

(** [bytes.Equal] *)
Definition bytes_Equal (x y : list byte) : bool := bool_decide (x = y).

(** [[]byte(s)] *)
Definition bytes_of_string (s : string) : list byte := list_byte_of_string s.

(** [strconv.FormatInt(i, 10)]: the decimal numeral, with a leading minus
    sign for a negative number. *)
Definition FormatInt (i : Z) : string := pretty i.

Definition byte_val (b : byte) : Z := Z.of_N (Byte.to_N b).
Definition byte_of (z : Z) : byte :=
  default x00 (Byte.of_N (Z.to_N (z mod 256))).

(** crypto/sha256 (FIPS 180-4), on 32-bit words held in [Z]. *)
Module sha256.

Definition mask32 (x : Z) : Z := Z.land x 0xffffffff.
Definition add32 (x y : Z) : Z := mask32 (x + y).
Definition rotr (n x : Z) : Z :=
  Z.lor (Z.shiftr x n) (mask32 (Z.shiftl x (32 - n))).
Definition shr (n x : Z) : Z := Z.shiftr x n.
Definition not32 (x : Z) : Z := Z.lxor x 0xffffffff.

Definition Ch (x y z : Z) : Z :=
  Z.lxor (Z.land x y) (Z.land (not32 x) z).
Definition Maj (x y z : Z) : Z :=
  Z.lxor (Z.lxor (Z.land x y) (Z.land x z)) (Z.land y z).
Definition Sigma0 (x : Z) : Z :=
  Z.lxor (Z.lxor (rotr 2 x) (rotr 13 x)) (rotr 22 x).
Definition Sigma1 (x : Z) : Z :=
  Z.lxor (Z.lxor (rotr 6 x) (rotr 11 x)) (rotr 25 x).
Definition sigma0 (x : Z) : Z :=
  Z.lxor (Z.lxor (rotr 7 x) (rotr 18 x)) (shr 3 x).
Definition sigma1 (x : Z) : Z :=
  Z.lxor (Z.lxor (rotr 17 x) (rotr 19 x)) (shr 10 x).

(** The largest [r] below [2^bits] with [r^k ≤ n], found bit by bit. *)
Fixpoint iroot_bits (k n : Z) (bits : nat) (r : Z) : Z :=
match bits with
| O => r
| S bits' =>
    let r' := r + 2 ^ Z.of_nat bits' in
    iroot_bits k n bits' (if decide (r' ^ k ≤ n) then r' else r)
end.

(** The first 32 bits of the fractional part of the [k]-th root of [p]. *)
Definition root_fraction (k p : Z) : Z :=
mask32 (iroot_bits k (p * 2 ^ (32 * k)) 36 0).

Definition primes : list Z :=
[ 2; 3; 5; 7; 11; 13; 17; 19; 23; 29; 31; 37; 41; 43; 47; 53;
  59; 61; 67; 71; 73; 79; 83; 89; 97; 101; 103; 107; 109; 113; 127; 131;
  137; 139; 149; 151; 157; 163; 167; 173; 179; 181; 191; 193; 197; 199;
  211; 223; 227; 229; 233; 239; 241; 251; 257; 263; 269; 271; 277; 281;
  283; 293; 307; 311 ].

(** The round constants: the cube roots of the first 64 primes. *)
Definition K : list Z := Eval vm_compute in root_fraction 3 <$> primes.

(** The initial hash value: the square roots of the first 8 primes. *)
Definition init : list Z :=
Eval vm_compute in root_fraction 2 <$> take 8 primes.

(** The [n] low bytes of [w], most significant first. *)
Definition be_bytes (n : nat) (w : Z) : list byte :=
  (λ i : nat, byte_of (Z.shiftr w (8 * Z.of_nat i))) <$> rev (seq 0 n).

Definition pad (msg : list byte) : list byte :=
  let len := Z.of_nat (length msg) in
  msg ++ [x80] ++ replicate (Z.to_nat ((55 - len) mod 64)) x00
      ++ be_bytes 8 (8 * len).

Fixpoint words (bs : list byte) : list Z :=
  match bs with
  | b0 :: b1 :: b2 :: b3 :: rest =>
      (((byte_val b0 * 256 + byte_val b1) * 256 + byte_val b2) * 256
       + byte_val b3) :: words rest
  | _ => []
  end.

Fixpoint blocks (fuel : nat) (ws : list Z) : list (list Z) :=
  match fuel, ws with
  | S fuel', _ :: _ => take 16 ws :: blocks fuel' (drop 16 ws)
  | _, _ => []
  end.

(** Message schedule; [w] holds the words so far, the latest first. *)
Fixpoint extend (n : nat) (w : list Z) : list Z :=
  match n with
  | O => w
  | S n' =>
      let new := add32 (add32 (sigma1 (w !!! 1%nat)) (w !!! 6%nat))
                       (add32 (sigma0 (w !!! 14%nat)) (w !!! 15%nat)) in
      extend n' (new :: w)
  end.
Definition schedule (block : list Z) : list Z := rev (extend 48 (rev block)).

Definition round (st : list Z) (kw : Z * Z) : list Z :=
  match st with
  | [a; b; c; d; e; f; g; h] =>
      let t1 :=
        add32 (add32 (add32 h (Sigma1 e)) (add32 (Ch e f g) kw.1)) kw.2 in
      let t2 := add32 (Sigma0 a) (Maj a b c) in
      [add32 t1 t2; a; b; c; add32 d t1; e; f; g]
  | _ => st
  end.

Definition compress (st : list Z) (block : list Z) : list Z :=
  zip_with add32 st (foldl round st (zip K (schedule block))).

(** The digest of a whole message. *)
Definition Sum256 (msg : list byte) : list byte :=
  let ws := words (pad msg) in
  foldl compress init (blocks (length ws) ws) ≫= be_bytes 4.

(** The [hash.Hash] object of [sha256.New()]: its state is the bytes
    written so far. *)
Definition digest : Type := list byte.
Definition New : digest := [].
Definition Write (d : digest) (bs : list byte) : digest := d ++ bs.
Definition Sum (d : digest) : list byte := Sum256 d.

End sha256.

(** Modelled from the spec: [byteconversion.FromByteArray], which is not
    under src/: "interprets the digest as an integer", read here as the
    big-endian unsigned value of the bytes; its error is nil. *)
Definition FromByteArray (bs : list byte) : Z * error :=
  (foldl (λ acc b, acc * 256 + byte_val b) 0 bs, nil_error).

(** ** Collaborators *)

(** Modelled from the spec: the pairing group library crypto/bn256, which
    is not under src/ (spec section 6): three groups, scalar
    multiplication, group addition, a pairing, and the canonical byte and
    string serializations.  The library writes all three groups
    additively. *)
Class Bn256 : Type := {
  bn256_G1 : Type;
  bn256_G2 : Type;
  bn256_GT : Type;
  Order : Z;
  G1_ScalarBaseMult : Z → bn256_G1;
  G2_ScalarBaseMult : Z → bn256_G2;
  G2_ScalarMult : bn256_G2 → Z → bn256_G2;
  G2_Add : bn256_G2 → bn256_G2 → bn256_G2;
  G2_Infinity : bn256_G2;
  G2_Marshal : bn256_G2 → list byte;
  G2_String : bn256_G2 → string;
  GT_ScalarMult : bn256_GT → Z → bn256_GT;
  GT_Add : bn256_GT → bn256_GT → bn256_GT;
  GT_Invert : bn256_GT → bn256_GT;
  GT_Marshal : bn256_GT → list byte;
  GT_String : bn256_GT → string;
  Pair : bn256_G1 → bn256_G2 → bn256_GT;
}.

Record keypair `{Bn256} : Type := Keypair {
  pubk : bn256_G1;
  privk : Z;
}.

(** Modelled from the spec: the signature scheme of bb.go, which is not
    under src/: [keygen] "generates a fresh signing key pair"
    ([keygen_returns kp]: [kp] is a pair that [keygen] can return without
    error), and [sign(value, privateKey)] is the digit-signing primitive,
    returning the signature and an error. *)
Class BBSig `{Bn256} : Type := {
  keygen_returns : keypair → Prop;
  sign : Z → Z → ptr bn256_G2 * error;
}.

(** ** ccs08.go *)

Section ccs08.
Context `{BB : BBSig}.

(** Package-level constants. *)
Definition G1 : bn256_G1 := G1_ScalarBaseMult 1.
Definition G2 : bn256_G2 := G2_ScalarBaseMult 1.
Definition E : bn256_GT := Pair G1 G2.

(** [params]: elements generated by the verifier.  [signatures] is a Go
    map from the decimal numeral of a digit to a pointer. *)
Record params : Type := Params {
  params_signatures : gmap string (ptr bn256_G2);
  params_H : bn256_G2;
  params_kp : keypair;
  params_u : Z;
  params_l : Z;
}.

(** [proof]: the slices hold pointers, which [make] leaves nil until they
    are assigned; the single pointers [D], [C], [c], [m], [zr] are taken
    non-nil, as [Prove] leaves them. *)
Record proof : Type := Proof {
  proof_V : list (ptr bn256_G2);
  proof_D : bn256_G2;
  proof_C : bn256_G2;
  proof_a : list (ptr bn256_GT);
  proof_s : list (ptr Z);
  proof_t : list (ptr Z);
  proof_zsig : list (ptr Z);
  proof_zv : list (ptr Z);
  proof_c : Z;
  proof_m : Z;
  proof_zr : Z;
}.

(** [m[key]] on a Go map of pointers: nil for a missing key. *)
Definition map_index {A} (m : gmap string (ptr A)) (key : string) : ptr A :=
  default None (m !! key).

(** [new(big.Int).Exp(x, y, nil)]: [x ** y], and 1 when [y <= 0]. *)
Definition big_Exp (x y : Z) : Z := if decide (y ≤ 0) then 1 else x ^ y.

(** [rand.Int(rand.Reader, bn256.Order)] with its error dropped: the
    next scalar of the random source, or nil when the source fails.  The
    source is the list of the scalars it will deliver. *)
Definition rand_Int (tape : list Z) : ptr Z * list Z :=
  (head tape, tail tape).

Definition Commit (x r : Z) (p : params) : bn256_G2 * error :=
  let C := G2_ScalarBaseMult x in
  let C := G2_Add C (G2_ScalarMult (params_H p) r) in
  (C, nil_error).

Definition Hash_body (a : list (ptr bn256_GT)) (i : Z) (digest : sha256.digest)
  : outcome sha256.digest :=
  ai ← slice_get a i ≫= deref;
  mret (sha256.Write digest (bytes_of_string (GT_String ai))).

Definition Hash (a : list (ptr bn256_GT)) (D : bn256_G2) : outcome (Z * error) :=
  let digest := sha256.New in
  digest ← for_lt (Hash_body a) (Z.of_nat (length a)) digest;
  let digest := sha256.Write digest (bytes_of_string (G2_String D)) in
  let output := sha256.Sum digest in
  let tmp := take (length output) (drop 0 output) in
  mret (FromByteArray tmp).

Definition Setup_body (privk : Z) (i : Z) (signatures : gmap string (ptr bn256_G2))
  : outcome (gmap string (ptr bn256_G2)) :=
  let '(sig_i, _) := sign i privk in
  mret (<[FormatInt i := sig_i]> signatures).

(** The argument of [GetBigInt] in [Setup]. *)
Definition h : Z :=
  18560948149108576432482904553159745978835170526553990798435819795989606410925.

(** [kp] is the key pair that the call of [keygen] returns. *)
Definition Setup (kp : keypair) (u l : Z) : outcome (params * error) :=
  signatures ← for_lt (Setup_body (privk kp)) u ∅;
  mret ({| params_signatures := signatures;
           params_H := G2_ScalarBaseMult h;
           params_kp := kp;
           params_u := u;
           params_l := l |}, nil_error).

(** The state of the first loop of [Prove]. *)
Record prove_state : Type := ProveState {
  ps_tape : list Z;
  ps_v : list (ptr Z);
  ps_V : list (ptr bn256_G2);
  ps_a : list (ptr bn256_GT);
  ps_s : list (ptr Z);
  ps_t : list (ptr Z);
  ps_D : bn256_G2;
}.

Definition Prove_body (p : params) (decx : list Z) (i : Z) (st : prove_state)
  : outcome prove_state :=
  let '(vi, tape) := rand_Int (ps_tape st) in
  v ← slice_set (ps_v st) i vi;
  di ← slice_get decx i;
  let A := map_index (params_signatures p) (FormatInt di) in
  A ← deref A;
  vi ← slice_get v i ≫= deref;
  V ← slice_set (ps_V st) i (Some (G2_ScalarMult A vi));
  let '(si, tape) := rand_Int tape in
  s ← slice_set (ps_s st) i si;
  let '(ti, tape) := rand_Int tape in
  t ← slice_set (ps_t st) i ti;
  Vi ← slice_get V i ≫= deref;
  let ai := Pair G1 Vi in
  si ← slice_get s i ≫= deref;
  let ai := GT_ScalarMult ai si in
  let ai := GT_Invert ai in
  ti ← slice_get t i ≫= deref;
  let ai := GT_Add ai (GT_ScalarMult E ti) in
  a ← slice_set (ps_a st) i (Some ai);
  let ui := big_Exp (params_u p) i in
  let muisi := si * ui in
  muisi ← Mod muisi Order;
  let aux := G2_ScalarBaseMult muisi in
  mret {| ps_tape := tape; ps_v := v; ps_V := V; ps_a := a; ps_s := s;
          ps_t := t; ps_D := G2_Add (ps_D st) aux |}.

(** The second loop of [Prove]; its state is [(zsig, zv)]. *)
Definition Prove_responses (decx : list Z) (v s t : list (ptr Z)) (c : Z)
    (i : Z) (st : list (ptr Z) * list (ptr Z))
  : outcome (list (ptr Z) * list (ptr Z)) :=
  si ← slice_get s i ≫= deref;
  di ← slice_get decx i;
  zsig ← slice_set st.1 i (Some (Sub si (Multiply di c)));
  z ← slice_get zsig i ≫= deref;
  z ← Mod z Order;
  zsig ← slice_set zsig i (Some z);
  ti ← slice_get t i ≫= deref;
  vi ← slice_get v i ≫= deref;
  zv ← slice_set st.2 i (Some (Sub ti (Multiply vi c)));
  z ← slice_get zv i ≫= deref;
  z ← Mod z Order;
  zv ← slice_set zv i (Some z);
  mret (zsig, zv).

(** [tape] is the random source; [fmt.Println(decx)] only prints. *)
Definition Prove (tape : list Z) (x r : Z) (p : params) : outcome (proof * error) :=
  '(decx, _) ← Decompose x (params_u p) (params_l p);
  v ← make_slice None (params_l p);
  V ← make_slice None (params_l p);
  a ← make_slice None (params_l p);
  s ← make_slice None (params_l p);
  t ← make_slice None (params_l p);
  zsig ← make_slice None (params_l p);
  zv ← make_slice None (params_l p);
  let proof_out_D := G2_Infinity in
  let '(m, tape) := rand_Int tape in
  m ← deref m;
  let D := G2_ScalarMult (params_H p) m in
  st ← for_lt (Prove_body p decx) (params_l p)
         {| ps_tape := tape; ps_v := v; ps_V := V; ps_a := a; ps_s := s;
            ps_t := t; ps_D := D |};
  let proof_out_D := G2_Add proof_out_D (ps_D st) in
  let '(C, _) := Commit x r p in
  '(c, _) ← Hash (ps_a st) proof_out_D;
  c ← Mod c Order;
  let zr := Sub m (Multiply r c) in
  zr ← Mod zr Order;
  zs ← for_lt (Prove_responses decx (ps_v st) (ps_s st) (ps_t st) c)
         (params_l p) (zsig, zv);
  mret ({| proof_V := ps_V st; proof_D := proof_out_D; proof_C := C;
           proof_a := ps_a st; proof_s := ps_s st; proof_t := ps_t st;
           proof_zsig := zs.1; proof_zv := zs.2;
           proof_c := c; proof_m := m; proof_zr := zr |}, nil_error).

(** The first loop of [Verify]: the recomputed [D]. *)
Definition Verify_D_body (proof_out : proof) (p : params) (i : Z) (D : bn256_G2)
  : outcome bn256_G2 :=
  let ui := big_Exp (params_u p) i in
  zsig_i ← slice_get (proof_zsig proof_out) i ≫= deref;
  let muizsigi := zsig_i * ui in
  muizsigi ← Mod muizsigi Order;
  let aux := G2_ScalarBaseMult muizsigi in
  mret (G2_Add D aux).

(** The value that the second loop of [Verify] compares with [a[i]]. *)
Definition Verify_digit (proof_out : proof) (pubk : bn256_G1) (i : Z)
  : outcome bn256_GT :=
  Vi ← slice_get (proof_V proof_out) i ≫= deref;
  let p1 := Pair pubk Vi in
  let p1 := GT_ScalarMult p1 (proof_c proof_out) in
  let p2 := Pair G1 Vi in
  zsig_i ← slice_get (proof_zsig proof_out) i ≫= deref;
  let p2 := GT_ScalarMult p2 zsig_i in
  let p2 := GT_Invert p2 in
  let p1 := GT_Add p1 p2 in
  zv_i ← slice_get (proof_zv proof_out) i ≫= deref;
  mret (GT_Add p1 (GT_ScalarMult E zv_i)).

Definition Verify_a_body (proof_out : proof) (pubk : bn256_G1) (i : Z) (r2 : bool)
  : outcome bool :=
  p1 ← Verify_digit proof_out pubk i;
  let pBytes := GT_Marshal p1 in
  a_i ← slice_get (proof_a proof_out) i ≫= deref;
  let aBytes := GT_Marshal a_i in
  mret (r2 && bytes_Equal pBytes aBytes).

Definition Verify_D (proof_out : proof) (p : params) : outcome bn256_G2 :=
  let D := G2_ScalarMult (proof_C proof_out) (proof_c proof_out) in
  let D := G2_Add D (G2_ScalarMult (params_H p) (proof_zr proof_out)) in
  for_lt (Verify_D_body proof_out p) (params_l p) D.

Definition Verify (proof_out : proof) (p : params) (pubk : bn256_G1)
  : outcome (bool * error) :=
  D ← Verify_D proof_out p;
  let DBytes := G2_Marshal D in
  let pDBytes := G2_Marshal (proof_D proof_out) in
  let r1 := bytes_Equal DBytes pDBytes in
  let r2 := true in
  r2 ← for_lt (Verify_a_body proof_out pubk) (params_l p) r2;
  mret (r1 && r2, nil_error).

End ccs08.

(** ** The transcript of the specification

    The proof that section 4.5 of the specification describes, written in
    closed form from the inputs of [Prove]; it is compared with the result
    of the loops of [Prove] below. *)

(** A list given by its entries. *)
Definition tabulate {A} (f : nat → A) (n : nat) : list A := f <$> seq 0 n.

Section transcript.
Context `{BB : BBSig}.

(** The scalars that [Prove] draws from the random source: [m] first,
    then [v_i], [s_i], [t_i] for each digit in turn. *)
Definition drawn_m (tape : list Z) : Z := tape !!! 0%nat.
Definition drawn_v (tape : list Z) (i : nat) : Z := tape !!! (1 + 3 * i)%nat.
Definition drawn_s (tape : list Z) (i : nat) : Z := tape !!! (2 + 3 * i)%nat.
Definition drawn_t (tape : list Z) (i : nat) : Z := tape !!! (3 + 3 * i)%nat.

(** The i-th digit of [x] in the base and length of [p]. *)
Definition digit (p : params) (x : Z) (i : nat) : Z :=
  digits (Z.to_nat (params_l p)) (params_u p) x !!! i.

(** The signature stored for the digit [d]. *)
Definition signature_of (p : params) (d : Z) : bn256_G2 :=
  default G2_Infinity (map_index (params_signatures p) (FormatInt d)).

(** V_i = A_i^(v_i) *)
Definition blinded_signature (p : params) (x : Z) (tape : list Z) (i : nat)
  : bn256_G2 :=
  G2_ScalarMult (signature_of p (digit p x i)) (drawn_v tape i).

(** a_i = e(g1, V_i)^(-s_i) · e(g1, g2)^(t_i) *)
Definition first_round (V : bn256_G2) (s t : Z) : bn256_GT :=
  GT_Add (GT_Invert (GT_ScalarMult (Pair G1 V) s)) (GT_ScalarMult E t).

(** g2^(z · u^i) *)
Definition weighted (u : Z) (z : Z) (i : nat) : bn256_G2 :=
  G2_ScalarBaseMult ((z * u ^ Z.of_nat i) mod Order).

(** The integer that [Hash] returns on non-nil first-round values. *)
Definition hash_value (a : list bn256_GT) (D : bn256_G2) : Z :=
  (FromByteArray
     (sha256.Sum256 (mjoin ((bytes_of_string ∘ GT_String) <$> a)
                     ++ bytes_of_string (G2_String D)))).1.

Definition transcript_V (tape : list Z) (x : Z) (p : params) : list bn256_G2 :=
  tabulate (blinded_signature p x tape) (Z.to_nat (params_l p)).

Definition transcript_a (tape : list Z) (x : Z) (p : params) : list bn256_GT :=
  tabulate (λ i, first_round (blinded_signature p x tape i)
                   (drawn_s tape i) (drawn_t tape i))
           (Z.to_nat (params_l p)).

(** D = H^m · Π g2^(s_i · u^i) *)
Definition transcript_D (tape : list Z) (p : params) : bn256_G2 :=
  G2_Add G2_Infinity
    (foldl G2_Add (G2_ScalarMult (params_H p) (drawn_m tape))
       (tabulate (λ i, weighted (params_u p) (drawn_s tape i) i)
                 (Z.to_nat (params_l p)))).

(** c = Hash(a, D) mod order *)
Definition transcript_c (tape : list Z) (x : Z) (p : params) : Z :=
  hash_value (transcript_a tape x p) (transcript_D tape p) mod Order.

Definition transcript (tape : list Z) (x r : Z) (p : params) : proof :=
  let n := Z.to_nat (params_l p) in
  let c := transcript_c tape x p in
  {| proof_V := Some <$> transcript_V tape x p;
     proof_D := transcript_D tape p;
     proof_C := G2_Add (G2_ScalarBaseMult x) (G2_ScalarMult (params_H p) r);
     proof_a := Some <$> transcript_a tape x p;
     proof_s := Some <$> tabulate (drawn_s tape) n;
     proof_t := Some <$> tabulate (drawn_t tape) n;
     proof_zsig :=
       Some <$> tabulate (λ i, (drawn_s tape i - digit p x i * c) mod Order) n;
     proof_zv :=
       Some <$> tabulate (λ i, (drawn_t tape i - drawn_v tape i * c) mod Order) n;
     proof_c := c;
     proof_m := drawn_m tape;
     proof_zr := (drawn_m tape - r * c) mod Order |}.

(** The parameters hold a signature for every digit of the base. *)
Definition signatures_present (p : params) : Prop :=
  ∀ d : Z, 0 ≤ d < params_u p →
    is_Some (map_index (params_signatures p) (FormatInt d)).

(** The random source delivers the 1 + 3·l scalars that [Prove] draws. *)
Definition tape_long_enough (tape : list Z) (l : Z) : Prop :=
  (1 + 3 * Z.to_nat l ≤ length tape)%nat.

End transcript.

(** ** The checks of the verifier, as the specification words them *)

Section checks.
Context `{BB : BBSig}.

(** The first [n] entries of a slice exist and are not nil. *)
Definition defined_upto {A} (s : list (ptr A)) (n : nat) : Prop :=
  ∀ i : nat, (i < n)%nat → is_Some (mjoin (s !! i)).

(** Entry [i] of a slice, for an entry that exists and is not nil. *)
Definition entry {A} (dflt : A) (s : list (ptr A)) (i : nat) : A :=
  default dflt (mjoin (s !! i)).

Definition V_at (pf : proof) : nat → bn256_G2 := entry G2_Infinity (proof_V pf).
Definition a_at (pf : proof) : nat → bn256_GT := entry E (proof_a pf).
Definition zsig_at (pf : proof) : nat → Z := entry 0 (proof_zsig pf).
Definition zv_at (pf : proof) : nat → Z := entry 0 (proof_zv pf).

(** The slices that [Verify] reads hold a value for each of the [l]
    digits. *)
Definition proof_well_formed (pf : proof) (l : Z) : Prop :=
  defined_upto (proof_V pf) (Z.to_nat l)
  ∧ defined_upto (proof_a pf) (Z.to_nat l)
  ∧ defined_upto (proof_zsig pf) (Z.to_nat l)
  ∧ defined_upto (proof_zv pf) (Z.to_nat l).

(** D' = C^c · H^zr · Π g2^(zsig_i · u^i) *)
Definition recomputed_D (pf : proof) (p : params) : bn256_G2 :=
  foldl G2_Add
    (G2_Add (G2_ScalarMult (proof_C pf) (proof_c pf))
            (G2_ScalarMult (params_H p) (proof_zr pf)))
    (tabulate (λ i, weighted (params_u p) (zsig_at pf i) i)
              (Z.to_nat (params_l p))).

(** a_i' = e(pubk, V_i)^c · e(g1, V_i)^(-zsig_i) · e(g1, g2)^(zv_i) *)
Definition recomputed_a (pf : proof) (pubk : bn256_G1) (i : nat) : bn256_GT :=
  GT_Add
    (GT_Add (GT_ScalarMult (Pair pubk (V_at pf i)) (proof_c pf))
            (GT_Invert (GT_ScalarMult (Pair G1 (V_at pf i)) (zsig_at pf i))))
    (GT_ScalarMult E (zv_at pf i)).

(** The consistency check: D' serializes identically to D. *)
Definition consistency_check (pf : proof) (p : params) : Prop :=
  G2_Marshal (recomputed_D pf p) = G2_Marshal (proof_D pf).

(** The check of digit [i]: a_i' serializes identically to a_i. *)
Definition digit_check (pf : proof) (pubk : bn256_G1) (i : nat) : Prop :=
  GT_Marshal (recomputed_a pf pubk i) = GT_Marshal (a_at pf i).

Global Instance consistency_check_dec pf p : Decision (consistency_check pf p) :=
  decide (G2_Marshal (recomputed_D pf p) = G2_Marshal (proof_D pf)).
Global Instance digit_check_dec pf pubk i : Decision (digit_check pf pubk i) :=
  decide (GT_Marshal (recomputed_a pf pubk i) = GT_Marshal (a_at pf i)).

(** All the checks of [Verify]. *)
Definition all_checks (pf : proof) (p : params) (pubk : bn256_G1) : Prop :=
  consistency_check pf p
  ∧ ∀ i : nat, (i < Z.to_nat (params_l p))%nat → digit_check pf pubk i.

End checks.

(** ** Hypotheses on parameters and randomness *)

Section validity.
Context `{BB : BBSig}.

(** The signature stored for the digit [d] passes the verification
    equation under the public key [pubk]. *)
Definition signature_valid (p : params) (pubk : bn256_G1) (d : Z) : Prop :=
  GT_Add (Pair pubk (signature_of p d))
         (GT_ScalarMult (Pair G1 (signature_of p d)) d) = E.

(** The parameters hold a valid signature for every digit of the base. *)
Definition params_valid (p : params) (pubk : bn256_G1) : Prop :=
  signatures_present p
  ∧ ∀ d : Z, 0 ≤ d < params_u p → signature_valid p pubk d.

(** [sign] returned a signature for every digit of the base [u]. *)
Definition signing_succeeded (kp : keypair) (u : Z) : Prop :=
  ∀ d : Z, 0 ≤ d < u → is_Some (sign d (privk kp)).1.

(** The scalars of the random source are in [0, Order), as [rand.Int]
    delivers them. *)
Definition tape_fresh (tape : list Z) : Prop :=
  Forall (λ z, 0 ≤ z < Order) tape.

End validity.

(** ** Witness data *)

Section witness_data.
Context `{BB : BBSig}.

(** Every scalar that a field of the proof holds. *)
Definition proof_scalars (pf : proof) : list Z :=
  proof_c pf :: proof_m pf :: proof_zr pf
  :: omap id (proof_s pf ++ proof_t pf ++ proof_zsig pf ++ proof_zv pf).

(** The witness of one run of [Prove]: the secret value, its digits, the
    blinding scalar m and the scalars v_i, s_i, t_i drawn for the digits. *)
Definition witness_scalars (tape : list Z) (x : Z) (p : params) : list Z :=
  x :: digits (Z.to_nat (params_l p)) (params_u p) x
    ++ take (1 + 3 * Z.to_nat (params_l p)) tape.

(** No witness scalar is held by a field of the proof. *)
Definition no_witness_data (tape : list Z) (x : Z) (p : params) (pf : proof)
  : Prop :=
  ∀ w : Z, w ∈ witness_scalars tape x p → w ∉ proof_scalars pf.

(** What a holder of the proof computes from its fields m, zr, s, zsig
    and c, the public u and l and an inverse [c'] of the challenge modulo
    the group order: (m - zr)·c', the values (s_i - zsig_i)·c', and the
    positional sum of the latter. *)
Definition recovered_r (pf : proof) (c' : Z) : Z :=
  ((proof_m pf - proof_zr pf) * c') mod Order.

Definition recovered_digit (pf : proof) (c' : Z) (i : nat) : Z :=
  ((entry 0 (proof_s pf) i - zsig_at pf i) * c') mod Order.

Definition recovered_x (pf : proof) (p : params) (c' : Z) : Z :=
  Zsum (tabulate (λ i, recovered_digit pf c' i * params_u p ^ Z.of_nat i)
                 (Z.to_nat (params_l p))).

End witness_data.

(** ** Tampering *)

(** The proof with its commitment-opening response incremented by one
    modulo the group order, every other field unchanged. *)
Definition tamper_zr `{Bn256} (pf : proof) : proof :=
  {| proof_V := proof_V pf; proof_D := proof_D pf; proof_C := proof_C pf;
     proof_a := proof_a pf; proof_s := proof_s pf; proof_t := proof_t pf;
     proof_zsig := proof_zsig pf; proof_zv := proof_zv pf;
     proof_c := proof_c pf; proof_m := proof_m pf;
     proof_zr := (proof_zr pf + 1) mod Order |}.

(** ** What the proofs ask of the collaborators *)

(** A group written additively, with scalar multiplication by
    non-negative integers that is periodic in [q]. *)
Class ScalarModule {T : Type} (q : Z) (add : T → T → T) (smul : T → Z → T)
  : Prop := {
  sm_add_assoc P Q R : add P (add Q R) = add (add P Q) R;
  sm_add_comm P Q : add P Q = add Q P;
  sm_smul_add P a b :
    0 ≤ a → 0 ≤ b → smul P (a + b) = add (smul P a) (smul P b);
  sm_smul_mul P a b :
    0 ≤ a → 0 ≤ b → smul (smul P a) b = smul P (a * b);
  sm_smul_distr P Q a :
    0 ≤ a → smul (add P Q) a = add (smul P a) (smul Q a);
  sm_smul_period P a : 0 ≤ a → smul P (a + q) = smul P a;
}.

(** The laws of the pairing groups: G2 and GT are groups of order [Order]
    (the laws are asked for non-negative scalars only), the base point of
    G2 has order exactly [Order], the pairing is linear in its second
    argument, and [Marshal] on G2 is canonical. *)
Class Bn256Laws `{Bn256} : Prop := {
  Order_pos : 0 < Order;
  G2_module :: ScalarModule Order G2_Add G2_ScalarMult;
  GT_module :: ScalarModule Order GT_Add GT_ScalarMult;
  G2_Add_Infinity P : G2_Add G2_Infinity P = P;
  G2_ScalarMult_0 P : G2_ScalarMult P 0 = G2_Infinity;
  G2_ScalarMult_1 P : G2_ScalarMult P 1 = P;
  G2_ScalarBaseMult_ScalarMult k :
    0 ≤ k → G2_ScalarBaseMult k = G2_ScalarMult (G2_ScalarBaseMult 1) k;
  G2_base_order k :
    0 ≤ k → G2_ScalarBaseMult k = G2_Infinity → (Order | k);
  G2_Marshal_inj P Q : G2_Marshal P = G2_Marshal Q → P = Q;
  GT_Invert_cancel a b : GT_Add (GT_Add (GT_Invert a) a) b = b;
  Pair_ScalarMult_r P Q k :
    0 ≤ k → Pair P (G2_ScalarMult Q k) = GT_ScalarMult (Pair P Q) k;
}.

(** The law of the signature scheme: a signature [A] on the digit [d]
    passes the verification equation e(pubk, A) + d·e(g1, A) = e(g1, g2). *)
Class BBSigLaws `{BBSig} : Prop := {
  sign_verifies kp d A :
    keygen_returns kp → 0 ≤ d → (sign d (privk kp)).1 = Some A →
    GT_Add (Pair (pubk kp) A) (GT_ScalarMult (Pair G1 A) d) = E;
}.

(** ** A small instance of the collaborators

    The integers modulo the group order, under addition, with
    multiplication as the pairing.  It has no cryptographic strength; it
    satisfies the algebraic laws that the proofs below ask of the library,
    so that every statement can be run on concrete values. *)
Module Zq.

(** The order of the bn256 groups. *)
Definition q : Z :=
  21888242871839275222246405745257275088548364400416034343698204186575808495617.

Definition t : Type := dsig (λ z : Z, 0 ≤ z < q).

Lemma reduce_bound (z : Z) : 0 ≤ z mod q < q.
Proof. apply Z.mod_pos_bound. reflexivity. Qed.

Definition of_Z (z : Z) : t := dexist (z mod q) (reduce_bound z).
Definition to_Z (a : t) : Z := `a.

Definition add (a b : t) : t := of_Z (to_Z a + to_Z b).
Definition smul (a : t) (k : Z) : t := of_Z (to_Z a * k).
Definition neg (a : t) : t := of_Z (- to_Z a).
Definition pair (a b : t) : t := of_Z (to_Z a * to_Z b).
Definition String (tag : string) (a : t) : string :=
  tag +:+ "(" +:+ pretty (to_Z a) +:+ ")".
Definition Marshal (a : t) : list byte := bytes_of_string (pretty (to_Z a)).

Global Instance bn256 : Bn256 := {|
  bn256_G1 := t;
  bn256_G2 := t;
  bn256_GT := t;
  Order := q;
  G1_ScalarBaseMult := of_Z;
  G2_ScalarBaseMult := of_Z;
  G2_ScalarMult := smul;
  G2_Add := add;
  G2_Infinity := of_Z 0;
  G2_Marshal := Marshal;
  G2_String := String "bn256.G2";
  GT_ScalarMult := smul;
  GT_Add := add;
  GT_Invert := neg;
  GT_Marshal := Marshal;
  GT_String := String "bn256.GT";
  Pair := pair;
|}.

Fixpoint powmod (b : Z) (e : positive) : Z :=
  match e with
  | xH => b mod q
  | xO e' => let r := powmod b e' in (r * r) mod q
  | xI e' => let r := powmod b e' in (r * r * b) mod q
  end.

(** A signature on [m] is the inverse of [m + privk] modulo [q]; signing
    fails when there is none. *)
Definition sign_inverse (m privk : Z) : ptr t * error :=
  let A := powmod (m + privk) (Z.to_pos (q - 2)) in
  if decide ((A * (m + privk)) mod q = 1) then (Some (of_Z A), nil_error)
  else (None, Some ErrOther).

Global Instance bb : BBSig := {|
  keygen_returns kp := pubk kp = of_Z (privk kp);
  sign := sign_inverse;
|}.

Definition keygen (k : Z) : keypair := {| pubk := of_Z k; privk := k |}.

(** Scenario A of the specification: base 2, 8 digits, the range
    [0, 256). *)
Definition example_kp : keypair := keygen 7.

Definition example_params : params :=
  {| params_signatures :=
       <[FormatInt 1 := (sign_inverse 1 7).1]>
         (<[FormatInt 0 := (sign_inverse 0 7).1]> ∅);
     params_H := of_Z h;
     params_kp := example_kp;
     params_u := 2;
     params_l := 8 |}.

(** A random source that delivers the 25 scalars 1000, 1001, ... *)
Definition example_tape : list Z := seqZ 1000 25.

(** Two first-round values and an aggregate element. *)
Definition example_a : list bn256_GT := [of_Z 3; of_Z 4].
Definition example_D : bn256_G2 := of_Z 2.

End Zq.

(** ** The same groups, with a scalar read bit by bit

    Modelled on the bn256 library, which is not under src/: scalar
    multiplication there is a double-and-add loop over the bits
    [k.BitLen()], ..., 0 of the scalar [k].  math/big takes [BitLen] of the
    absolute value and answers [Bit(i)] for a negative number from its
    two's complement, so the loop reads a non-negative scalar as it is, and
    a negative one as another number: -5 as 11.  The groups, the pairing
    and the signatures are those of [Zq]. *)
Module Zbits.
Import Zq.

(** [k.BitLen()] *)
Definition BitLen (k : Z) : Z :=
  if decide (k = 0) then 0 else Z.log2 (Z.abs k) + 1.

(** The number whose bits are [k.Bit(BitLen k)], ..., [k.Bit(0)]. *)
Definition scalar_read (k : Z) : Z := Z.land k (Z.ones (BitLen k + 1)).

Definition smul (a : t) (k : Z) : t := Zq.smul a (scalar_read k).

#[local] Instance bn256 : Bn256 := {|
  bn256_G1 := t;
  bn256_G2 := t;
  bn256_GT := t;
  Order := q;
  G1_ScalarBaseMult k := of_Z (scalar_read k);
  G2_ScalarBaseMult k := of_Z (scalar_read k);
  G2_ScalarMult := smul;
  G2_Add := add;
  G2_Infinity := of_Z 0;
  G2_Marshal := Marshal;
  G2_String := String "bn256.G2";
  GT_ScalarMult := smul;
  GT_Add := add;
  GT_Invert := neg;
  GT_Marshal := Marshal;
  GT_String := String "bn256.GT";
  Pair := pair;
|}.

#[local] Instance bb : BBSig := {|
  keygen_returns kp := pubk kp = of_Z (privk kp);
  sign := sign_inverse;
|}.

Definition keygen (k : Z) : keypair := {| pubk := of_Z k; privk := k |}.

(** Scenario A of the specification in this instance. *)
Definition example_kp : keypair := keygen 7.

Definition example_params : params :=
  {| params_signatures :=
       <[FormatInt 1 := (sign_inverse 1 7).1]>
         (<[FormatInt 0 := (sign_inverse 0 7).1]> ∅);
     params_H := of_Z h;
     params_kp := example_kp;
     params_u := 2;
     params_l := 8 |}.

End Zbits.

(** ** The same groups, with an encoding that has no delimiter

    [String] is the decimal numeral of the element, without the tag and
    the parentheses of [Zq]. *)
Module Zplain.
Import Zq.

Definition String (a : t) : string := pretty (to_Z a).

#[local] Instance bn256 : Bn256 := {|
  bn256_G1 := t;
  bn256_G2 := t;
  bn256_GT := t;
  Order := q;
  G1_ScalarBaseMult := of_Z;
  G2_ScalarBaseMult := of_Z;
  G2_ScalarMult := Zq.smul;
  G2_Add := add;
  G2_Infinity := of_Z 0;
  G2_Marshal := Marshal;
  G2_String := String;
  GT_ScalarMult := Zq.smul;
  GT_Add := add;
  GT_Invert := neg;
  GT_Marshal := Marshal;
  GT_String := String;
  Pair := pair;
|}.

End Zplain.

(** * Properties *)

(** ** The run-time model *)

Lemma bind_Returned {A B} (m : outcome A) (f : A → outcome B) (b : B) :
  m ≫= f = Returned b ↔ ∃ a, m = Returned a ∧ f a = Returned b.
Proof.
  destruct m as [a|why]; simpl; split.
  - intros Hf. by exists a.
  - by intros (a' & [= <-] & Hf).
  - intros [=].
  - by intros (a' & [=] & _).
Qed.

Lemma make_slice_Returned {A} (zero : A) (l : Z) :
  0 ≤ l → make_slice zero l = Returned (replicate (Z.to_nat l) zero).
Proof. intros Hl. unfold make_slice. by rewrite decide_False by lia. Qed.

Lemma make_slice_negative {A} (zero : A) (l : Z) :
  l < 0 → make_slice zero l = Panicked MakeSliceLenOutOfRange.
Proof. intros Hl. unfold make_slice. by rewrite decide_True. Qed.

Lemma slice_set_middle {A} (pre post : list A) (old x : A) :
  slice_set (pre ++ old :: post) (Z.of_nat (length pre)) x
  = Returned (pre ++ x :: post).
Proof.
  unfold slice_set. rewrite decide_True.
  - rewrite Nat2Z.id. f_equal.
    replace (length pre) with (length pre + 0)%nat at 1 by lia.
    by rewrite insert_app_r.
  - rewrite length_app. simpl. lia.
Qed.

Lemma slice_get_middle {A} (pre post : list A) (x : A) :
  slice_get (pre ++ x :: post) (Z.of_nat (length pre)) = Returned x.
Proof.
  unfold slice_get. rewrite decide_True by lia.
  by rewrite Nat2Z.id, list_lookup_middle.
Qed.

Lemma slice_get_lookup {A} (s : list A) (i : nat) (x : A) :
  s !! i = Some x → slice_get s (Z.of_nat i) = Returned x.
Proof.
  intros Hi. unfold slice_get. rewrite decide_True by lia.
  by rewrite Nat2Z.id, Hi.
Qed.

Lemma slice_get_Returned {A} (s : list A) (i : Z) (x : A) :
  slice_get s i = Returned x ↔ 0 ≤ i ∧ s !! Z.to_nat i = Some x.
Proof.
  unfold slice_get. destruct (decide (0 ≤ i)) as [Hi|Hi].
  - destruct (s !! Z.to_nat i) as [y|]; split.
    + by intros [= ->].
    + by intros [_ [= ->]].
    + intros [=].
    + by intros [_ [=]].
  - split; [intros [=] | intros [? _]; lia].
Qed.

(** ** Integers *)

Lemma Int64_id (z : Z) : is_int64 z → Int64 z = z.
Proof.
  unfold is_int64, MinInt64, MaxInt64, Int64. intros Hz.
  rewrite Z.mod_small; lia.
Qed.

Lemma euclid_mod_pos (x u : Z) : 0 < u → euclid_mod x u = x mod u.
Proof. intros Hu. unfold euclid_mod. by rewrite Z.abs_eq by lia. Qed.

Lemma euclid_div_pos (x u : Z) : 0 < u → euclid_div x u = x / u.
Proof.
  intros Hu. unfold euclid_div.
  rewrite Z.abs_eq, Z.sgn_pos by lia. lia.
Qed.

Lemma Mod_pos (x u : Z) : 0 < u → Mod x u = Returned (x mod u).
Proof.
  intros Hu. unfold Mod. rewrite decide_False by lia.
  by rewrite euclid_mod_pos.
Qed.

Lemma big_Div_pos (x u : Z) : 0 < u → big_Div x u = Returned (x / u).
Proof.
  intros Hu. unfold big_Div. rewrite decide_False by lia.
  by rewrite euclid_div_pos.
Qed.

(** ** Digits *)

Lemma positional_sum_nil (u : Z) : positional_sum u [] = 0.
Proof. reflexivity. Qed.

Lemma Zsum_imap_scale {A} (u : Z) (g : nat → A → Z) (l : list A) :
  Zsum (imap (λ i d, u * g i d) l) = u * Zsum (imap g l).
Proof.
  revert g. induction l as [|d l IH]; intros g; [simpl; lia|].
  rewrite !imap_cons. cbn [Zsum foldr].
  specialize (IH (g ∘ S)). unfold Zsum in IH; simpl in IH.
  unfold Zsum, compose in *. rewrite IH. lia.
Qed.

Lemma positional_sum_cons (u d : Z) (ds : list Z) :
  positional_sum u (d :: ds) = d + u * positional_sum u ds.
Proof.
  unfold positional_sum. rewrite imap_cons. simpl.
  rewrite Z.mul_1_r. f_equal.
  rewrite <- Zsum_imap_scale. f_equal. apply imap_ext.
  intros i x _. simpl. rewrite Nat2Z.inj_succ, Z.pow_succ_r by lia. lia.
Qed.

Lemma length_digits (n : nat) (u x : Z) : length (digits n u x) = n.
Proof. revert x. induction n as [|n IH]; intros x; simpl; [done|]. by rewrite IH. Qed.

Lemma digits_range (n : nat) (u x : Z) :
  0 < u → Forall (λ d, 0 ≤ d < u) (digits n u x).
Proof.
  intros Hu. revert x. induction n as [|n IH]; intros x; simpl.
  - constructor.
  - constructor; [by apply Z.mod_pos_bound | apply IH].
Qed.

(** The digit at position [i] is [(x / u^i) mod u]. *)
Lemma lookup_digits (n : nat) (u x : Z) (i : nat) :
  0 < u → (i < n)%nat → digits n u x !! i = Some ((x / u ^ Z.of_nat i) mod u).
Proof.
  intros Hu. revert x i. induction n as [|n IH]; intros x i Hi; [lia|].
  destruct i as [|i].
  - simpl. by rewrite Z.div_1_r.
  - rewrite Nat2Z.inj_succ, Z.pow_succ_r by lia.
    cbn [digits]. rewrite lookup_cons. rewrite IH by lia.
    by rewrite Z.div_div by lia.
Qed.

(** The digits are those of [x] reduced modulo [u^n]. *)
Lemma positional_sum_digits (n : nat) (u x : Z) :
  0 < u → positional_sum u (digits n u x) = x mod u ^ Z.of_nat n.
Proof.
  intros Hu. revert x. induction n as [|n IH]; intros x.
  - simpl. by rewrite Z.mod_1_r.
  - cbn [digits]. rewrite positional_sum_cons, IH.
    rewrite Nat2Z.inj_succ, Z.pow_succ_r by lia.
    rewrite Z.rem_mul_r by lia. done.
Qed.

Lemma digits_mod (n : nat) (u x : Z) :
  0 < u → digits n u (x mod u ^ Z.of_nat n) = digits n u x.
Proof.
  intros Hu. revert x. induction n as [|n IH]; intros x; [done|].
  cbn [digits]. rewrite Nat2Z.inj_succ, Z.pow_succ_r by lia.
  assert (0 < u ^ Z.of_nat n) as Hpow by (apply Z.pow_pos_nonneg; lia).
  f_equal.
  - rewrite Z.rem_mul_r by lia.
    rewrite (Z.mul_comm u), Z.mod_add by lia.
    by rewrite Z.mod_mod by lia.
  - replace (x mod (u * u ^ Z.of_nat n) / u) with ((x / u) mod u ^ Z.of_nat n);
      [apply IH|].
    rewrite Z.rem_mul_r by lia.
    rewrite (Z.mul_comm u), Z.div_add by lia.
    by rewrite Z.mod_div by lia.
Qed.

(** ** Decompose *)

Lemma Decompose_body_spec (u x old : Z) (pre post : list Z) :
  1 ≤ u ≤ MaxInt64 →
  Decompose_body u (Z.of_nat (length pre)) (pre ++ old :: post, x)
  = Returned (pre ++ x mod u :: post, x / u).
Proof.
  intros Hu. unfold Decompose_body. simpl.
  rewrite Mod_pos by lia. simpl.
  rewrite slice_set_middle. simpl.
  rewrite big_Div_pos by lia. simpl.
  rewrite Int64_id; [done|].
  pose proof (Z.mod_pos_bound x u ltac:(lia)).
  unfold is_int64, MinInt64, MaxInt64 in *. lia.
Qed.

Lemma Decompose_loop_spec (u : Z) (n : nat) :
  1 ≤ u ≤ MaxInt64 →
  ∀ (pre post : list Z) (x : Z),
    length post = n →
    for_range (Decompose_body u) (Z.of_nat (length pre)) n (pre ++ post, x)
    = Returned (pre ++ digits n u x, x / u ^ Z.of_nat n).
Proof.
  intros Hu. induction n as [|n IH]; intros pre post x Hlen.
  - destruct post; [|done]. simpl. by rewrite Z.div_1_r.
  - destruct post as [|old post]; [done|]. cbn [for_range].
    rewrite Decompose_body_spec by done. cbn [mbind outcome_bind].
    replace (Z.of_nat (length pre) + 1)
      with (Z.of_nat (length (pre ++ [x mod u])))
      by (rewrite length_app; simpl; lia).
    replace (pre ++ x mod u :: post) with ((pre ++ [x mod u]) ++ post)
      by (by rewrite <- (assoc_L (++))).
    rewrite IH by (simpl in Hlen; lia).
    rewrite <- (assoc_L (++)). cbn [app digits].
    rewrite Nat2Z.inj_succ, Z.pow_succ_r by lia.
    by rewrite Z.div_div by lia.
Qed.

(** For a base in [1, MaxInt64] and a non-negative length, [Decompose]
    returns the [l] low base-[u] digits of [x], with a nil error. *)
Lemma Decompose_digits (x u l : Z) :
  1 ≤ u ≤ MaxInt64 → 0 ≤ l →
  Decompose x u l = Returned (digits (Z.to_nat l) u x, nil_error).
Proof.
  intros Hu Hl. unfold Decompose.
  rewrite make_slice_Returned by done. simpl.
  unfold for_lt.
  pose proof (Decompose_loop_spec u (Z.to_nat l) Hu [] (replicate (Z.to_nat l) 0) x)
    as Hloop.
  change (Z.of_nat (length [])) with 0 in Hloop. cbn [app] in Hloop.
  cbn [mbind outcome_bind]. rewrite Hloop by apply length_replicate. done.
Qed.

(** ** Loops *)

(** The invariant rule for [for_range]. *)
Lemma for_range_invariant {S} (I : nat → S → Prop) (body : Z → S → outcome S)
    (n : nat) (s : S) :
  I 0%nat s →
  (∀ (j : nat) (st : S), (j < n)%nat → I j st →
     ∃ st', body (Z.of_nat j) st = Returned st' ∧ I (Datatypes.S j) st') →
  ∃ st', for_range body 0 n s = Returned st' ∧ I n st'.
Proof.
  intros Hinit Hstep.
  cut (∀ (k j : nat) (st : S), (j + k = n)%nat → I j st →
         ∃ st', for_range body (Z.of_nat j) k st = Returned st' ∧ I n st').
  { intros Hgen. apply (Hgen n 0%nat s); [lia|done]. }
  induction k as [|k IH]; intros j st Hjk Hj.
  - exists st. replace n with j by lia. done.
  - destruct (Hstep j st ltac:(lia) Hj) as (st1 & Hbody & Hst1).
    cbn [for_range]. rewrite Hbody. cbn [mbind outcome_bind].
    replace (Z.of_nat j + 1) with (Z.of_nat (Datatypes.S j)) by lia.
    apply IH; [lia|done].
Qed.

(** A loop whose body panics at its first round panics. *)
Lemma for_lt_first_panics {S} (body : Z → S → outcome S) (l : Z) (s : S) why :
  0 < l → body 0 s = Panicked why → for_lt body l s = Panicked why.
Proof.
  intros Hl Hbody. unfold for_lt.
  destruct (Z.to_nat l) as [|n] eqn:Hn; [lia|].
  cbn [for_range]. by rewrite Hbody.
Qed.

Lemma for_lt_nonpositive {S} (body : Z → S → outcome S) (l : Z) (s : S) :
  l ≤ 0 → for_lt body l s = Returned s.
Proof. intros Hl. unfold for_lt. by rewrite Z2Nat.nonpos. Qed.

(** ** Slices under construction *)

(** A slice made by [make] whose first [j] entries have been assigned the
    first [j] values of [full]. *)
Definition filled {A} (full : list A) (j n : nat) : list (ptr A) :=
  (Some <$> take j full) ++ replicate (n - j) None.

Lemma filled_0 {A} (full : list A) (n : nat) :
  filled full 0 n = replicate n None.
Proof. unfold filled. rewrite take_0, Nat.sub_0_r. done. Qed.

Lemma filled_all {A} (full : list A) :
  filled full (length full) (length full) = Some <$> full.
Proof.
  unfold filled. rewrite firstn_all, Nat.sub_diag. simpl.
  by rewrite (right_id_L [] (++)).
Qed.

Lemma filled_full {A} (full : list A) (n : nat) :
  length full = n → filled full n n = Some <$> full.
Proof. intros <-. apply filled_all. Qed.

Lemma filled_split {A} (full : list A) (j n : nat) :
  (j < n)%nat →
  filled full j n = (Some <$> take j full) ++ None :: replicate (n - S j) None.
Proof.
  intros Hj. unfold filled.
  replace (n - j)%nat with (S (n - S j)) by lia. done.
Qed.

Lemma filled_step {A} (full : list A) (j n : nat) (x : A) :
  full !! j = Some x →
  (Some <$> take j full) ++ Some x :: replicate (n - S j) None
  = filled full (S j) n.
Proof.
  intros Hx. unfold filled.
  rewrite (take_S_r _ _ _ Hx), fmap_app, <- (assoc_L (++)). done.
Qed.

Lemma length_filled_prefix {A} (full : list A) (j : nat) :
  (j ≤ length full)%nat → length (Some <$> take j full) = j.
Proof. intros Hj. rewrite length_fmap, length_take. lia. Qed.

Lemma slice_set_at {A} (pre post : list A) (old x : A) (j : nat) :
  length pre = j →
  slice_set (pre ++ old :: post) (Z.of_nat j) x = Returned (pre ++ x :: post).
Proof. intros <-. apply slice_set_middle. Qed.

Lemma slice_get_at {A} (pre post : list A) (x : A) (j : nat) :
  length pre = j → slice_get (pre ++ x :: post) (Z.of_nat j) = Returned x.
Proof. intros <-. apply slice_get_middle. Qed.

(** Assigning entry [j] of a slice filled up to [j]. *)
Lemma slice_set_filled {A} (full : list A) (j n : nat) (y : ptr A) :
  (j < n)%nat → (j ≤ length full)%nat →
  slice_set (filled full j n) (Z.of_nat j) y
  = Returned ((Some <$> take j full) ++ y :: replicate (n - S j) None).
Proof.
  intros Hj Hlen. rewrite filled_split by done.
  apply slice_set_at. by apply length_filled_prefix.
Qed.

Lemma slice_set_prefix {A} (full : list A) (j : nat) (old y : ptr A)
    (rest : list (ptr A)) :
  (j ≤ length full)%nat →
  slice_set ((Some <$> take j full) ++ old :: rest) (Z.of_nat j) y
  = Returned ((Some <$> take j full) ++ y :: rest).
Proof. intros Hlen. apply slice_set_at. by apply length_filled_prefix. Qed.

Lemma slice_get_prefix {A} (full : list A) (j : nat) (y : ptr A)
    (rest : list (ptr A)) :
  (j ≤ length full)%nat →
  slice_get ((Some <$> take j full) ++ y :: rest) (Z.of_nat j) = Returned y.
Proof. intros Hlen. apply slice_get_at. by apply length_filled_prefix. Qed.

Lemma slice_get_Some {A} (full : list A) (j : nat) (x : A) :
  full !! j = Some x →
  slice_get (Some <$> full) (Z.of_nat j) ≫= deref = Returned x.
Proof.
  intros Hx. rewrite (slice_get_lookup _ j (Some x)); [done|].
  by rewrite list_lookup_fmap, Hx.
Qed.

Lemma length_tabulate {A} (f : nat → A) (n : nat) : length (tabulate f n) = n.
Proof. unfold tabulate. by rewrite length_fmap, length_seq. Qed.

Lemma lookup_tabulate {A} (f : nat → A) (n j : nat) :
  (j < n)%nat → tabulate f n !! j = Some (f j).
Proof.
  intros Hj. unfold tabulate.
  by rewrite list_lookup_fmap, lookup_seq_lt.
Qed.

Lemma tabulate_S {A} (f : nat → A) (n : nat) :
  tabulate f (S n) = tabulate f n ++ [f n].
Proof. unfold tabulate. by rewrite seq_S, fmap_app. Qed.

Lemma take_tabulate {A} (f : nat → A) (n j : nat) :
  (j ≤ n)%nat → take j (tabulate f n) = tabulate f j.
Proof.
  intros Hj. unfold tabulate. rewrite <- fmap_take. f_equal.
  rewrite take_seq. f_equal. lia.
Qed.

Lemma slice_get_tabulate {A} (f : nat → A) (n j : nat) :
  (j < n)%nat →
  slice_get (Some <$> tabulate f n) (Z.of_nat j) ≫= deref = Returned (f j).
Proof. intros Hj. by apply slice_get_Some, lookup_tabulate. Qed.

(** ** The random source *)

Lemma rand_Int_drop (tape : list Z) (k : nat) (z : Z) :
  tape !! k = Some z →
  rand_Int (drop k tape) = (Some z, drop (S k) tape).
Proof.
  intros Hk. unfold rand_Int.
  by rewrite (drop_S _ _ _ Hk).
Qed.

Lemma for_range_states {S} (body : Z → S → outcome S) (n : nat) (f : nat → S) :
  (∀ j : nat, (j < n)%nat → body (Z.of_nat j) (f j) = Returned (f (Datatypes.S j))) →
  for_range body 0 n (f 0%nat) = Returned (f n).
Proof.
  intros Hstep.
  destruct (for_range_invariant (λ j st, st = f j) body n (f 0%nat))
    as (st & Hrun & ->); [done| |done].
  intros j st Hj ->. exists (f (Datatypes.S j)). split; [by apply Hstep|done].
Qed.

Lemma big_Exp_nonneg (x i : Z) : 0 ≤ i → big_Exp x i = x ^ i.
Proof.
  intros Hi. unfold big_Exp. destruct (decide (i ≤ 0)) as [H0|H0]; [|done].
  by replace i with 0 by lia.
Qed.

(** ** Prove computes the transcript *)

Section prove_transcript.
Context `{BB : BBSig}.
Variables (tape : list Z) (x r : Z) (p : params).
Hypothesis Order_positive : 0 < Order.
Hypothesis u_range : 1 ≤ params_u p ≤ MaxInt64.
Hypothesis l_nonneg : 0 ≤ params_l p.
Hypothesis sigs : signatures_present p.
Hypothesis tape_len : tape_long_enough tape (params_l p).

Let n : nat := Z.to_nat (params_l p).
Let decx : list Z := digits n (params_u p) x.

(** The state of the first loop after [j] rounds. *)
Definition prove_state_at (j : nat) : prove_state :=
  {| ps_tape := drop (1 + 3 * j) tape;
     ps_v := filled (tabulate (drawn_v tape) n) j n;
     ps_V := filled (transcript_V tape x p) j n;
     ps_a := filled (transcript_a tape x p) j n;
     ps_s := filled (tabulate (drawn_s tape) n) j n;
     ps_t := filled (tabulate (drawn_t tape) n) j n;
     ps_D := foldl G2_Add (G2_ScalarMult (params_H p) (drawn_m tape))
               (tabulate (λ i, weighted (params_u p) (drawn_s tape i) i) j) |}.

Lemma tape_lookup (k : nat) :
  (k < 1 + 3 * n)%nat → tape !! k = Some (tape !!! k).
Proof.
  intros Hk. apply list_lookup_lookup_total_lt.
  unfold tape_long_enough in tape_len. fold n in tape_len. lia.
Qed.

Lemma decx_lookup (j : nat) :
  (j < n)%nat → decx !! j = Some (digit p x j).
Proof.
  intros Hj. apply list_lookup_lookup_total_lt.
  unfold decx. by rewrite length_digits.
Qed.

Lemma digit_range (j : nat) :
  (j < n)%nat → 0 ≤ digit p x j < params_u p.
Proof.
  intros Hj. pose proof (decx_lookup j Hj) as Hd.
  pose proof (digits_range n (params_u p) x ltac:(lia)) as Hall.
  rewrite Forall_lookup in Hall. by apply (Hall j).
Qed.

Lemma signature_lookup (j : nat) :
  (j < n)%nat →
  map_index (params_signatures p) (FormatInt (digit p x j))
  = Some (signature_of p (digit p x j)).
Proof.
  intros Hj. unfold signature_of.
  destruct (sigs (digit p x j) (digit_range j Hj)) as [A ->]. done.
Qed.

Local Ltac solve_length :=
  cbv [transcript_V transcript_a]; rewrite ?length_tabulate;
  try fold n; lia.

Lemma Prove_body_step (j : nat) :
  (j < n)%nat →
  Prove_body p decx (Z.of_nat j) (prove_state_at j)
  = Returned (prove_state_at (S j)).
Proof.
  intros Hj. unfold Prove_body, prove_state_at.
  cbn [ps_tape ps_v ps_V ps_a ps_s ps_t ps_D].
  rewrite (rand_Int_drop tape (1 + 3 * j) (drawn_v tape j))
    by (apply tape_lookup; lia).
  cbv iota beta.
  rewrite slice_set_filled by (rewrite ?length_tabulate; lia).
  cbn [mbind outcome_bind].
  rewrite (slice_get_lookup decx j _ (decx_lookup j Hj)).
  cbn [mbind outcome_bind].
  rewrite signature_lookup by done. cbn [deref].
  rewrite slice_get_prefix by (rewrite length_tabulate; lia).
  cbn [mbind outcome_bind deref].
  rewrite slice_set_filled by solve_length.
  cbn [mbind outcome_bind].
  rewrite (rand_Int_drop tape (S (1 + 3 * j)) (drawn_s tape j))
    by (apply (tape_lookup (2 + 3 * j)); lia).
  cbv iota beta.
  rewrite slice_set_filled by (rewrite ?length_tabulate; lia).
  cbn [mbind outcome_bind].
  rewrite (rand_Int_drop tape (S (S (1 + 3 * j))) (drawn_t tape j))
    by (apply (tape_lookup (3 + 3 * j)); lia).
  cbv iota beta.
  rewrite slice_set_filled by (rewrite ?length_tabulate; lia).
  cbn [mbind outcome_bind].
  rewrite !slice_get_prefix by solve_length.
  cbn [mbind outcome_bind deref].
  rewrite slice_set_filled by solve_length.
  cbn [mbind outcome_bind].
  rewrite Mod_pos by done.
  cbn [mbind outcome_bind mret outcome_ret].
  f_equal. f_equal.
  - f_equal. lia.
  - apply filled_step, lookup_tabulate, Hj.
  - apply filled_step. unfold transcript_V. fold n.
    by rewrite lookup_tabulate.
  - apply filled_step. unfold transcript_a. fold n.
    by rewrite lookup_tabulate.
  - apply filled_step, lookup_tabulate, Hj.
  - apply filled_step, lookup_tabulate, Hj.
  - rewrite tabulate_S, foldl_app. cbn [foldl]. unfold weighted.
    by rewrite big_Exp_nonneg by lia.
Qed.

(** The state of the second loop after [j] rounds. *)
Definition responses_at (c : Z) (j : nat) : list (ptr Z) * list (ptr Z) :=
  (filled (tabulate (λ i, (drawn_s tape i - digit p x i * c) mod Order) n) j n,
   filled (tabulate (λ i, (drawn_t tape i - drawn_v tape i * c) mod Order) n) j n).

Lemma Prove_responses_step (c : Z) (j : nat) :
  (j < n)%nat →
  Prove_responses decx (Some <$> tabulate (drawn_v tape) n)
    (Some <$> tabulate (drawn_s tape) n) (Some <$> tabulate (drawn_t tape) n)
    c (Z.of_nat j) (responses_at c j)
  = Returned (responses_at c (S j)).
Proof.
  intros Hj. unfold Prove_responses, responses_at. cbn [fst snd].
  rewrite !slice_get_tabulate by done.
  cbn [mbind outcome_bind].
  rewrite (slice_get_lookup decx j _ (decx_lookup j Hj)).
  cbn [mbind outcome_bind].
  rewrite slice_set_filled by solve_length.
  cbn [mbind outcome_bind].
  rewrite slice_get_prefix by solve_length.
  cbn [mbind outcome_bind deref].
  rewrite Mod_pos by done. cbn [mbind outcome_bind].
  rewrite slice_set_prefix by solve_length.
  cbn [mbind outcome_bind].
  rewrite slice_set_filled by solve_length.
  cbn [mbind outcome_bind].
  rewrite slice_get_prefix by solve_length.
  cbn [mbind outcome_bind deref].
  rewrite Mod_pos by done. cbn [mbind outcome_bind].
  rewrite slice_set_prefix by solve_length.
  cbn [mbind outcome_bind mret outcome_ret].
  unfold Sub, Multiply.
  f_equal. f_equal; apply filled_step; by rewrite lookup_tabulate.
Qed.

Lemma Hash_body_step (a : list bn256_GT) (j : nat) :
  (j < length a)%nat →
  Hash_body (Some <$> a) (Z.of_nat j)
    (mjoin ((bytes_of_string ∘ GT_String) <$> take j a))
  = Returned (mjoin ((bytes_of_string ∘ GT_String) <$> take (S j) a)).
Proof.
  intros Hj. unfold Hash_body.
  destruct (lookup_lt_is_Some_2 a j Hj) as [aj Haj].
  rewrite (slice_get_Some a j aj Haj). cbn [mbind outcome_bind mret outcome_ret].
  rewrite (take_S_r _ _ _ Haj), fmap_app, join_app. simpl.
  by rewrite (right_id_L [] (++)).
Qed.

(** On non-nil first-round values [Hash] returns [hash_value], with a nil
    error. *)
Lemma Hash_spec (a : list bn256_GT) (D : bn256_G2) :
  Hash (Some <$> a) D = Returned (hash_value a D, nil_error).
Proof.
  unfold Hash, for_lt. rewrite length_fmap, Nat2Z.id.
  pose proof (for_range_states (Hash_body (Some <$> a)) (length a)
    (λ j, mjoin ((bytes_of_string ∘ GT_String) <$> take j a))) as Hloop.
  cbv beta in Hloop. rewrite take_0 in Hloop. simpl in Hloop.
  unfold sha256.New. rewrite Hloop by (intros j Hj; by apply Hash_body_step).
  cbn [mbind outcome_bind mret outcome_ret].
  rewrite drop_0, firstn_all, firstn_all. done.
Qed.

(** Under the hypotheses of this section, [Prove] returns the transcript
    of the specification, with a nil error. *)
Lemma prove_state_at_0 :
  prove_state_at 0
  = {| ps_tape := drop 1 tape;
       ps_v := replicate n None; ps_V := replicate n None;
       ps_a := replicate n None; ps_s := replicate n None;
       ps_t := replicate n None;
       ps_D := G2_ScalarMult (params_H p) (drawn_m tape) |}.
Proof. unfold prove_state_at. by rewrite !filled_0. Qed.

Lemma prove_state_at_n :
  prove_state_at n
  = {| ps_tape := drop (1 + 3 * n) tape;
       ps_v := Some <$> tabulate (drawn_v tape) n;
       ps_V := Some <$> transcript_V tape x p;
       ps_a := Some <$> transcript_a tape x p;
       ps_s := Some <$> tabulate (drawn_s tape) n;
       ps_t := Some <$> tabulate (drawn_t tape) n;
       ps_D := foldl G2_Add (G2_ScalarMult (params_H p) (drawn_m tape))
                 (tabulate (λ i, weighted (params_u p) (drawn_s tape i) i) n) |}.
Proof.
  unfold prove_state_at.
  rewrite !filled_full by solve_length. done.
Qed.

Lemma Prove_loop :
  for_lt (Prove_body p decx) (params_l p)
    {| ps_tape := drop 1 tape;
       ps_v := replicate n None; ps_V := replicate n None;
       ps_a := replicate n None; ps_s := replicate n None;
       ps_t := replicate n None;
       ps_D := G2_ScalarMult (params_H p) (drawn_m tape) |}
  = Returned (prove_state_at n).
Proof.
  rewrite <- prove_state_at_0. unfold for_lt. fold n.
  apply (for_range_states (Prove_body p decx) n prove_state_at).
  apply Prove_body_step.
Qed.

Lemma Prove_responses_loop (c : Z) :
  for_lt (Prove_responses decx (Some <$> tabulate (drawn_v tape) n)
            (Some <$> tabulate (drawn_s tape) n)
            (Some <$> tabulate (drawn_t tape) n) c)
    (params_l p) (replicate n None, replicate n None)
  = Returned (responses_at c n).
Proof.
  replace (replicate n None, replicate n None) with (responses_at c 0)
    by (unfold responses_at; by rewrite !filled_0).
  unfold for_lt. fold n.
  apply (for_range_states _ n (responses_at c)).
  apply Prove_responses_step.
Qed.

(** Under the hypotheses of this section, [Prove] returns the transcript
    of the specification, with a nil error. *)
Lemma Prove_transcript :
  Prove tape x r p = Returned (transcript tape x r p, nil_error).
Proof.
  unfold Prove. rewrite Decompose_digits by done.
  cbn [mbind outcome_bind]. cbv iota beta.
  rewrite !make_slice_Returned by done.
  cbn [mbind outcome_bind].
  rewrite <- (drop_0 tape) at 1.
  rewrite (rand_Int_drop tape 0 (drawn_m tape)) by (apply tape_lookup; lia).
  cbv iota beta. cbn [deref mbind outcome_bind].
  fold n. fold decx. rewrite Prove_loop, prove_state_at_n.
  cbn [mbind outcome_bind ps_a ps_D ps_v ps_s ps_t ps_V].
  unfold Commit. cbv iota beta zeta.
  rewrite Hash_spec. cbn [mbind outcome_bind]. cbv iota beta.
  rewrite Mod_pos by done. cbn [mbind outcome_bind].
  rewrite Mod_pos by done. cbn [mbind outcome_bind].
  rewrite Prove_responses_loop. cbn [mbind outcome_bind mret outcome_ret].
  unfold responses_at. cbn [fst snd].
  rewrite !filled_full by solve_length.
  reflexivity.
Qed.
End prove_transcript.

(** ** Verify *)

Lemma defined_upto_fmap_Some {A} (full : list A) (n : nat) :
  length full = n → defined_upto (Some <$> full) n.
Proof.
  intros Hlen i Hi. rewrite list_lookup_fmap.
  destruct (lookup_lt_is_Some_2 full i ltac:(lia)) as [x ->]. by exists x.
Qed.

Lemma entry_fmap_Some {A} (dflt : A) (full : list A) (i : nat) (x : A) :
  full !! i = Some x → entry dflt (Some <$> full) i = x.
Proof. intros Hx. unfold entry. by rewrite list_lookup_fmap, Hx. Qed.

Lemma slice_get_entry {A} (dflt : A) (s : list (ptr A)) (i : nat) :
  is_Some (mjoin (s !! i)) →
  slice_get s (Z.of_nat i) ≫= deref = Returned (entry dflt s i).
Proof.
  intros [x Hx]. unfold entry, slice_get.
  rewrite decide_True by lia. rewrite Nat2Z.id.
  destruct (s !! i) as [[y|]|]; by simplify_eq/=.
Qed.

Lemma slice_get_deref_Returned {A} (s : list (ptr A)) (i : nat) (x : A) :
  slice_get s (Z.of_nat i) ≫= deref = Returned x → is_Some (mjoin (s !! i)).
Proof.
  unfold slice_get. rewrite decide_True by lia. rewrite Nat2Z.id.
  destruct (s !! i) as [[y|]|]; simpl; intros [=]. by exists y.
Qed.

(** If a loop returns, each of its rounds has returned. *)
Lemma for_range_rounds {S} (body : Z → S → outcome S) (n : nat) (s s' : S) :
  for_range body 0 n s = Returned s' →
  ∀ j : nat, (j < n)%nat → ∃ st st', body (Z.of_nat j) st = Returned st'.
Proof.
  cut (∀ (k : nat) (i : nat) (st : S),
         for_range body (Z.of_nat i) k st = Returned s' →
         ∀ j : nat, (i ≤ j < i + k)%nat →
           ∃ st1 st2, body (Z.of_nat j) st1 = Returned st2).
  { intros Hgen Hrun j Hj. apply (Hgen n 0%nat s Hrun). lia. }
  induction k as [|k IH]; intros i st Hrun j Hj; [lia|].
  cbn [for_range] in Hrun. apply bind_Returned in Hrun as (st1 & Hbody & Hrest).
  destruct (decide (j = i)) as [->|Hne]; [by exists st, st1|].
  replace (Z.of_nat i + 1) with (Z.of_nat (Datatypes.S i)) in Hrest by lia.
  apply (IH (Datatypes.S i) st1 Hrest). lia.
Qed.

Section verify.
Context `{BB : BBSig}.
Variables (pf : proof) (p : params) (pubk : bn256_G1).
Hypothesis Order_positive : 0 < Order.

Let n : nat := Z.to_nat (params_l p).

Lemma Verify_D_body_defined (i : nat) (D : bn256_G2) :
  is_Some (mjoin (proof_zsig pf !! i)) →
  Verify_D_body pf p (Z.of_nat i) D
  = Returned (G2_Add D (weighted (params_u p) (zsig_at pf i) i)).
Proof.
  intros Hi. unfold Verify_D_body.
  rewrite (slice_get_entry 0) by done. cbn [mbind outcome_bind].
  rewrite Mod_pos by done. cbn [mbind outcome_bind mret outcome_ret].
  unfold weighted, zsig_at. by rewrite big_Exp_nonneg by lia.
Qed.

Lemma Verify_D_body_Returned (i : nat) (D D' : bn256_G2) :
  Verify_D_body pf p (Z.of_nat i) D = Returned D' →
  is_Some (mjoin (proof_zsig pf !! i)).
Proof.
  unfold Verify_D_body. intros (z & Hz & _)%bind_Returned.
  by apply slice_get_deref_Returned in Hz.
Qed.

Lemma Verify_D_defined :
  defined_upto (proof_zsig pf) n → Verify_D pf p = Returned (recomputed_D pf p).
Proof.
  intros Hdef. unfold Verify_D, recomputed_D, for_lt. fold n.
  set (D0 := G2_Add _ _).
  apply (for_range_states (Verify_D_body pf p) n
           (λ j, foldl G2_Add D0
                   (tabulate (λ i, weighted (params_u p) (zsig_at pf i) i) j))).
  intros j Hj. rewrite Verify_D_body_defined by (by apply Hdef).
  by rewrite tabulate_S, foldl_app.
Qed.

Lemma Verify_D_Returned (D : bn256_G2) :
  Verify_D pf p = Returned D → defined_upto (proof_zsig pf) n.
Proof.
  unfold Verify_D, for_lt. fold n. intros Hrun i Hi.
  destruct (for_range_rounds _ _ _ _ Hrun i Hi) as (D1 & D2 & Hbody).
  by apply Verify_D_body_Returned in Hbody.
Qed.

Lemma Verify_digit_defined (i : nat) :
  is_Some (mjoin (proof_V pf !! i)) →
  is_Some (mjoin (proof_zsig pf !! i)) →
  is_Some (mjoin (proof_zv pf !! i)) →
  Verify_digit pf pubk (Z.of_nat i) = Returned (recomputed_a pf pubk i).
Proof.
  intros HV Hzsig Hzv. unfold Verify_digit.
  rewrite (slice_get_entry G2_Infinity) by done. cbn [mbind outcome_bind].
  rewrite (slice_get_entry 0) by done. cbn [mbind outcome_bind].
  rewrite (slice_get_entry 0) by done. done.
Qed.

Lemma Verify_digit_Returned (i : nat) (p1 : bn256_GT) :
  Verify_digit pf pubk (Z.of_nat i) = Returned p1 →
  is_Some (mjoin (proof_V pf !! i))
  ∧ is_Some (mjoin (proof_zsig pf !! i))
  ∧ is_Some (mjoin (proof_zv pf !! i)).
Proof.
  unfold Verify_digit.
  intros (V & HV & (zsig & Hzsig & (zv & Hzv & _)%bind_Returned)%bind_Returned)
    %bind_Returned.
  apply slice_get_deref_Returned in HV, Hzsig, Hzv. done.
Qed.

Lemma Verify_a_body_defined (i : nat) (r2 : bool) :
  is_Some (mjoin (proof_V pf !! i)) →
  is_Some (mjoin (proof_a pf !! i)) →
  is_Some (mjoin (proof_zsig pf !! i)) →
  is_Some (mjoin (proof_zv pf !! i)) →
  Verify_a_body pf pubk (Z.of_nat i) r2
  = Returned (r2 && bool_decide (digit_check pf pubk i)).
Proof.
  intros HV Ha Hzsig Hzv. unfold Verify_a_body.
  rewrite Verify_digit_defined by done. cbn [mbind outcome_bind].
  rewrite (slice_get_entry E) by done. done.
Qed.

Lemma Verify_a_body_Returned (i : nat) (r2 r2' : bool) :
  Verify_a_body pf pubk (Z.of_nat i) r2 = Returned r2' →
  is_Some (mjoin (proof_V pf !! i))
  ∧ is_Some (mjoin (proof_a pf !! i))
  ∧ is_Some (mjoin (proof_zsig pf !! i))
  ∧ is_Some (mjoin (proof_zv pf !! i)).
Proof.
  unfold Verify_a_body.
  intros (p1 & Hp1 & (ai & Hai & _)%bind_Returned)%bind_Returned.
  apply Verify_digit_Returned in Hp1 as (HV & Hzsig & Hzv).
  apply slice_get_deref_Returned in Hai. done.
Qed.

(** The value of [r2] after the second loop. *)
Definition digit_checks_upto (j : nat) : bool :=
  forallb (λ i, bool_decide (digit_check pf pubk i)) (seq 0 j).

Lemma digit_checks_upto_true (j : nat) :
  digit_checks_upto j = true ↔ ∀ i : nat, (i < j)%nat → digit_check pf pubk i.
Proof.
  unfold digit_checks_upto. rewrite forallb_forall. split.
  - intros Hall i Hi.
    apply (bool_decide_eq_true_1 (digit_check pf pubk i)), Hall, in_seq. lia.
  - intros Hall i Hi%in_seq.
    apply (bool_decide_eq_true_2 (digit_check pf pubk i)), Hall. lia.
Qed.

Lemma Verify_a_loop_defined :
  proof_well_formed pf (params_l p) →
  for_lt (Verify_a_body pf pubk) (params_l p) true
  = Returned (digit_checks_upto n).
Proof.
  intros (HV & Ha & Hzsig & Hzv). unfold for_lt. fold n in HV, Ha, Hzsig, Hzv |- *.
  apply (for_range_states (Verify_a_body pf pubk) n digit_checks_upto).
  intros j Hj. rewrite Verify_a_body_defined by auto.
  unfold digit_checks_upto. rewrite seq_S, forallb_app. simpl.
  by rewrite andb_true_r.
Qed.

(** On a well-formed proof [Verify] returns the conjunction of the
    checks, with a nil error. *)
Lemma Verify_defined :
  proof_well_formed pf (params_l p) →
  Verify pf p pubk
  = Returned (bool_decide (consistency_check pf p) && digit_checks_upto n,
              nil_error).
Proof.
  intros Hwf. unfold Verify.
  rewrite Verify_D_defined by apply Hwf. cbn [mbind outcome_bind].
  rewrite Verify_a_loop_defined by done. done.
Qed.

(** [Verify] returns only on a well-formed proof, and with a nil error. *)
Lemma Verify_Returned (b : bool) (e : error) :
  Verify pf p pubk = Returned (b, e) →
  proof_well_formed pf (params_l p) ∧ e = nil_error.
Proof.
  unfold Verify.
  intros (D & HD & (r2 & Hr2 & [= _ <-])%bind_Returned)%bind_Returned.
  split; [|done].
  assert (∀ i, (i < n)%nat →
    is_Some (mjoin (proof_V pf !! i)) ∧ is_Some (mjoin (proof_a pf !! i))
    ∧ is_Some (mjoin (proof_zsig pf !! i)) ∧ is_Some (mjoin (proof_zv pf !! i)))
    as Hall.
  { intros i Hi. unfold for_lt in Hr2. fold n in Hr2.
    destruct (for_range_rounds _ _ _ _ Hr2 i Hi) as (b1 & b2 & Hbody).
    by apply Verify_a_body_Returned in Hbody. }
  unfold proof_well_formed, defined_upto. fold n.
  repeat split; intros i Hi; by apply Hall.
Qed.
End verify.

(** ** Modular arithmetic *)

Lemma Zsum_app (l1 l2 : list Z) : Zsum (l1 ++ l2) = Zsum l1 + Zsum l2.
Proof. unfold Zsum. induction l1 as [|z l1 IH]; simpl; lia. Qed.

Lemma Zsum_tabulate_S (f : nat → Z) (j : nat) :
  Zsum (tabulate f (S j)) = Zsum (tabulate f j) + f j.
Proof. rewrite tabulate_S, Zsum_app. simpl. lia. Qed.

Lemma Zsum_tabulate_nonneg (f : nat → Z) (j : nat) :
  (∀ i, 0 ≤ f i) → 0 ≤ Zsum (tabulate f j).
Proof.
  intros Hf. induction j as [|j IH]; [done|].
  rewrite Zsum_tabulate_S. specialize (Hf j). lia.
Qed.

Lemma imap_tabulate {A B} `{!Inhabited A} (f : nat → A → B) (l : list A) :
  imap f l = tabulate (λ i, f i (l !!! i)) (length l).
Proof.
  apply list_eq. intros i. rewrite list_lookup_imap.
  destruct (l !! i) as [x|] eqn:Hi.
  - rewrite lookup_tabulate by (by eapply lookup_lt_Some).
    by rewrite (list_lookup_total_correct _ _ _ Hi).
  - simpl. symmetry. apply lookup_ge_None.
    rewrite length_tabulate. by apply lookup_ge_None.
Qed.

(** m = r·c + zr modulo q, for zr = (m - r·c) mod q. *)
Lemma response_zr_congr (m r c q : Z) :
  (r * c + (m - r * c) mod q) mod q = m mod q.
Proof. rewrite Zplus_mod_idemp_r. f_equal. lia. Qed.

(** s·w = c·(d·w) + zsig·w modulo q, for zsig = (s - d·c) mod q. *)
Lemma response_zsig_congr (s d c w q : Z) :
  (c * (d * w) + ((s - d * c) mod q * w) mod q) mod q = ((s * w) mod q) mod q.
Proof.
  rewrite Zplus_mod_idemp_r, Zmod_mod.
  rewrite Zplus_mod, Zmult_mod_idemp_l, <- Zplus_mod.
  f_equal. ring.
Qed.

(** The weighted responses add up to the weighted randomness, modulo q,
    once the challenge times the positional sum of the digits is added. *)
Lemma response_sum_congr (s d : nat → Z) (c u q : Z) (j : nat) :
  (c * Zsum (tabulate (λ i, d i * u ^ Z.of_nat i) j)
   + Zsum (tabulate (λ i, ((s i - d i * c) mod q * u ^ Z.of_nat i) mod q) j))
    mod q
  = Zsum (tabulate (λ i, (s i * u ^ Z.of_nat i) mod q) j) mod q.
Proof.
  induction j as [|j IH]; [cbn; f_equal; lia|].
  rewrite !Zsum_tabulate_S.
  match goal with
  | |- (c * (?A + ?x) + (?B + ?y)) mod q = _ =>
      replace (c * (A + x) + (B + y)) with ((c * A + B) + (c * x + y)) by ring
  end.
  rewrite Zplus_mod, IH, response_zsig_congr, <- Zplus_mod.
  by rewrite Zplus_mod_idemp_r.
Qed.

(** zv-side congruences of the per-digit check. *)
Lemma response_zv_congr (t v c q : Z) :
  (v * c + (t - v * c) mod q) mod q = t mod q.
Proof. apply response_zr_congr. Qed.

Lemma response_cross_congr (s t v d c q : Z) :
  (d * t + v * ((s - d * c) mod q)) mod q
  = (d * ((t - v * c) mod q) + v * s) mod q.
Proof.
  rewrite Zplus_mod, Zmult_mod_idemp_r, <- Zplus_mod.
  symmetry. rewrite Zplus_mod, Zmult_mod_idemp_r, <- Zplus_mod.
  f_equal. ring.
Qed.

(** ** Scalar modules *)

Section scalar_module.
Context {T : Type} {q : Z} {add : T → T → T} {smul : T → Z → T}.
Context `{!ScalarModule q add smul}.
Hypothesis q_pos : 0 < q.

Lemma smul_add_multiple (P : T) (a : Z) (k : nat) :
  0 ≤ a → smul P (a + Z.of_nat k * q) = smul P a.
Proof.
  intros Ha. induction k as [|k IH].
  - f_equal. lia.
  - replace (a + Z.of_nat (S k) * q) with ((a + Z.of_nat k * q) + q) by lia.
    rewrite sm_smul_period by nia. done.
Qed.

Lemma smul_mod (P : T) (a : Z) : 0 ≤ a → smul P (a mod q) = smul P a.
Proof.
  intros Ha. rewrite (Z.div_mod a q) at 2 by lia.
  pose proof (Z.mod_pos_bound a q q_pos).
  pose proof (Z.div_pos a q Ha q_pos).
  replace (q * (a / q) + a mod q)
    with (a mod q + Z.of_nat (Z.to_nat (a / q)) * q) by lia.
  by rewrite smul_add_multiple by lia.
Qed.

Lemma smul_congr (P : T) (a b : Z) :
  0 ≤ a → 0 ≤ b → a mod q = b mod q → smul P a = smul P b.
Proof.
  intros Ha Hb Hab. rewrite <- (smul_mod P a), <- (smul_mod P b) by done.
  by rewrite Hab.
Qed.

(** The combination a·P + b·Q of two points. *)
Definition lin (P Q : T) (a b : Z) : T := add (smul P a) (smul Q b).

Lemma add_swap (W X Y Z' : T) :
  add (add W X) (add Y Z') = add (add W Y) (add X Z').
Proof.
  rewrite <- (sm_add_assoc (add:=add) W X).
  rewrite (sm_add_assoc (add:=add) X Y), (sm_add_comm (add:=add) X Y).
  by rewrite <- (sm_add_assoc (add:=add) Y X), (sm_add_assoc (add:=add) W Y).
Qed.

Lemma lin_add (P Q : T) (a b a' b' : Z) :
  0 ≤ a → 0 ≤ b → 0 ≤ a' → 0 ≤ b' →
  add (lin P Q a b) (lin P Q a' b') = lin P Q (a + a') (b + b').
Proof.
  intros. unfold lin. rewrite add_swap.
  by rewrite <- !sm_smul_add by done.
Qed.

Lemma lin_smul (P Q : T) (a b c : Z) :
  0 ≤ a → 0 ≤ b → 0 ≤ c →
  smul (lin P Q a b) c = lin P Q (a * c) (b * c).
Proof.
  intros. unfold lin.
  by rewrite sm_smul_distr, !sm_smul_mul by done.
Qed.

Lemma lin_congr (P Q : T) (a b a' b' : Z) :
  0 ≤ a → 0 ≤ b → 0 ≤ a' → 0 ≤ b' →
  a mod q = a' mod q → b mod q = b' mod q →
  lin P Q a b = lin P Q a' b'.
Proof.
  intros. unfold lin.
  by rewrite (smul_congr P a a'), (smul_congr Q b b').
Qed.
End scalar_module.

Lemma tabulate_ext {A} (f g : nat → A) (n : nat) :
  (∀ i : nat, (i < n)%nat → f i = g i) → tabulate f n = tabulate g n.
Proof.
  intros Hfg. unfold tabulate. apply list_fmap_ext.
  intros i x Hx%lookup_seq. apply Hfg. lia.
Qed.

(** ** Completeness: the consistency check *)

Section consistency.
Context `{BB : BBSig} {BL : Bn256Laws}.

Local Abbreviation G2lin := (lin (add:=G2_Add) (smul:=G2_ScalarMult)).

Lemma G2_Add_Infinity_r (P : bn256_G2) : G2_Add P G2_Infinity = P.
Proof. rewrite (sm_add_comm (add:=G2_Add)). apply G2_Add_Infinity. Qed.

Lemma G2_ScalarBaseMult_lin (Q : bn256_G2) (k : Z) :
  0 ≤ k → G2_ScalarBaseMult k = G2lin G2 Q k 0.
Proof.
  intros Hk. unfold lin.
  rewrite G2_ScalarMult_0, G2_Add_Infinity_r.
  by apply G2_ScalarBaseMult_ScalarMult.
Qed.

Lemma G2_ScalarMult_lin (Q : bn256_G2) (k : Z) :
  G2_ScalarMult Q k = G2lin G2 Q 0 k.
Proof. unfold lin. by rewrite G2_ScalarMult_0, G2_Add_Infinity. Qed.

(** Adding the weighted terms to a combination. *)
Lemma foldl_weighted (Q : bn256_G2) (u a b : Z) (z : nat → Z) (j : nat) :
  0 ≤ a → 0 ≤ b →
  foldl G2_Add (G2lin G2 Q a b) (tabulate (λ i, weighted u (z i) i) j)
  = G2lin G2 Q
      (a + Zsum (tabulate (λ i, (z i * u ^ Z.of_nat i) mod Order) j)) b.
Proof.
  intros Ha Hb. pose proof Order_pos as Hq.
  assert (∀ i, 0 ≤ (z i * u ^ Z.of_nat i) mod Order) as Hnn.
  { intros i. by apply Z.mod_pos_bound. }
  induction j as [|j IH].
  - cbn. by rewrite Z.add_0_r.
  - rewrite tabulate_S, foldl_app, IH. cbn [foldl].
    unfold weighted. rewrite (G2_ScalarBaseMult_lin Q) by apply Hnn.
    pose proof (Zsum_tabulate_nonneg _ j Hnn).
    rewrite lin_add by (try apply Hnn; lia).
    rewrite Zsum_tabulate_S. f_equal; lia.
Qed.

Variables (tape : list Z) (x r : Z) (p : params).
Hypothesis u_range : 1 ≤ params_u p ≤ MaxInt64.
Hypothesis l_nonneg : 0 ≤ params_l p.
Hypothesis x_range : 0 ≤ x < params_u p ^ params_l p.
Hypothesis r_nonneg : 0 ≤ r.
Hypothesis fresh : tape_fresh tape.

Let n : nat := Z.to_nat (params_l p).
Let c : Z := transcript_c tape x p.

Lemma tape_nonneg (k : nat) : 0 ≤ tape !!! k.
Proof.
  destruct (tape !! k) as [z|] eqn:Hk.
  - rewrite (list_lookup_total_correct _ _ _ Hk).
    unfold tape_fresh in fresh. rewrite Forall_lookup in fresh.
    by apply (fresh k z).
  - by rewrite list_lookup_total_alt, Hk.
Qed.

Lemma c_nonneg : 0 ≤ c.
Proof. unfold c, transcript_c. apply Z.mod_pos_bound, Order_pos. Qed.

Lemma digit_nonneg (i : nat) : 0 ≤ digit p x i.
Proof.
  unfold digit. fold n.
  destruct (digits n (params_u p) x !! i) as [d|] eqn:Hi.
  - rewrite (list_lookup_total_correct _ _ _ Hi).
    pose proof (digits_range n (params_u p) x ltac:(lia)) as Hall.
    rewrite Forall_lookup in Hall. by apply (Hall i d).
  - by rewrite list_lookup_total_alt, Hi.
Qed.

(** x is the positional sum of its digits. *)
Lemma x_positional :
  x = Zsum (tabulate (λ i, digit p x i * params_u p ^ Z.of_nat i) n).
Proof.
  pose proof (positional_sum_digits n (params_u p) x ltac:(lia)) as Hsum.
  unfold positional_sum in Hsum.
  rewrite imap_tabulate, length_digits in Hsum.
  unfold digit. fold n. rewrite Hsum.
  unfold n. rewrite Z2Nat.id by done. symmetry. by apply Z.mod_small.
Qed.

Lemma transcript_D_lin :
  transcript_D tape p
  = G2lin G2 (params_H p)
      (Zsum (tabulate (λ i, (drawn_s tape i * params_u p ^ Z.of_nat i) mod Order) n))
      (drawn_m tape).
Proof.
  unfold transcript_D. rewrite G2_Add_Infinity.
  rewrite (G2_ScalarMult_lin (params_H p)).
  rewrite foldl_weighted by (try apply tape_nonneg; lia).
  done.
Qed.

Lemma transcript_zsig_at (i : nat) :
  (i < n)%nat →
  zsig_at (transcript tape x r p) i
  = (drawn_s tape i - digit p x i * c) mod Order.
Proof.
  intros Hi. unfold zsig_at. cbn [transcript proof_zsig].
  apply entry_fmap_Some. fold n. by rewrite lookup_tabulate.
Qed.

Lemma transcript_recomputed_D_lin :
  recomputed_D (transcript tape x r p) p
  = G2lin G2 (params_H p)
      (x * c
       + Zsum (tabulate
                 (λ i, ((drawn_s tape i - digit p x i * c) mod Order
                        * params_u p ^ Z.of_nat i) mod Order) n))
      (r * c + (drawn_m tape - r * c) mod Order).
Proof.
  pose proof Order_pos as Hq. pose proof c_nonneg as Hc.
  unfold recomputed_D. cbn [transcript proof_C proof_c proof_zr].
  fold n. fold c.
  rewrite (G2_ScalarBaseMult_lin (params_H p)) by lia.
  rewrite (G2_ScalarMult_lin (params_H p) r).
  rewrite (G2_ScalarMult_lin (params_H p) (_ mod _)).
  pose proof (Z.mod_pos_bound (drawn_m tape - r * c) Order Hq).
  rewrite lin_add, lin_smul, lin_add by nia.
  rewrite (tabulate_ext _
    (λ i, weighted (params_u p)
            ((drawn_s tape i - digit p x i * c) mod Order) i))
    by (intros i Hi; by rewrite transcript_zsig_at).
  rewrite foldl_weighted by nia.
  f_equal; lia.
Qed.

(** The consistency check passes on the transcript. *)
Lemma transcript_consistency :
  recomputed_D (transcript tape x r p) p = proof_D (transcript tape x r p).
Proof.
  pose proof Order_pos as Hq. pose proof c_nonneg as Hc.
  cbn [transcript proof_D].
  rewrite transcript_recomputed_D_lin, transcript_D_lin.
  pose proof (Z.mod_pos_bound (drawn_m tape - r * c) Order Hq).
  assert (∀ f : nat → Z, 0 ≤ Zsum (tabulate (λ i, f i mod Order) n)) as Hsum.
  { intros f. apply Zsum_tabulate_nonneg. intros i. by apply Z.mod_pos_bound. }
  apply (lin_congr Hq).
  - specialize (Hsum (λ i, (drawn_s tape i - digit p x i * c) mod Order
                              * params_u p ^ Z.of_nat i)). nia.
  - nia.
  - apply Hsum.
  - apply tape_nonneg.
  - rewrite x_positional at 1. rewrite (Z.mul_comm _ c).
    apply response_sum_congr.
  - apply response_zr_congr.
Qed.
End consistency.

(** ** Completeness: the per-digit check *)

Section digit_check_complete.
Context `{BB : BBSig} {BL : Bn256Laws}.

Local Abbreviation GTlin := (lin (add:=GT_Add) (smul:=GT_ScalarMult)).

Lemma GT_Add_cancel_r (X Y W : bn256_GT) :
  GT_Add X W = GT_Add Y W → X = Y.
Proof.
  intros HXY.
  rewrite <- (GT_Invert_cancel W X), <- (GT_Invert_cancel W Y).
  rewrite <- !(sm_add_assoc (add:=GT_Add) (GT_Invert W)).
  by rewrite (sm_add_comm (add:=GT_Add) W X), (sm_add_comm (add:=GT_Add) W Y), HXY.
Qed.

(** The algebra of one digit: with e(pubk, A) = P, e(g1, A) = Q and
    P + d·Q = E0, the verifier's value equals the prover's. *)
Lemma digit_algebra (P Q E0 : bn256_GT) (d v s t c : Z) :
  0 ≤ d → 0 ≤ v → 0 ≤ s → 0 ≤ t → 0 ≤ c →
  GT_Add P (GT_ScalarMult Q d) = E0 →
  GT_Add
    (GT_Add (GT_ScalarMult (GT_ScalarMult P v) c)
            (GT_Invert (GT_ScalarMult (GT_ScalarMult Q v) ((s - d * c) mod Order))))
    (GT_ScalarMult E0 ((t - v * c) mod Order))
  = GT_Add (GT_Invert (GT_ScalarMult (GT_ScalarMult Q v) s))
           (GT_ScalarMult E0 t).
Proof.
  intros Hd Hv Hs Ht Hc HE. pose proof Order_pos as Hq.
  set (zsig := (s - d * c) mod Order). set (zv := (t - v * c) mod Order).
  assert (0 ≤ zsig) by (by apply Z.mod_pos_bound).
  assert (0 ≤ zv) by (by apply Z.mod_pos_bound).
  set (Xs := GT_ScalarMult (GT_ScalarMult Q v) s).
  set (Xz := GT_ScalarMult (GT_ScalarMult Q v) zsig).
  apply (GT_Add_cancel_r _ _ (GT_Add Xs Xz)).
  (* the prover's side *)
  rewrite (add_swap (add:=GT_Add) (GT_Invert Xs)), GT_Invert_cancel.
  (* the verifier's side *)
  rewrite (sm_add_comm (add:=GT_Add) Xs Xz).
  rewrite (sm_add_comm (add:=GT_Add) _ (GT_Invert Xz)).
  rewrite <- (sm_add_assoc (add:=GT_Add) (GT_Invert Xz)).
  rewrite (add_swap (add:=GT_Add) (GT_Invert Xz)), GT_Invert_cancel.
  (* both sides as combinations of P and Q *)
  subst Xs Xz. rewrite <- HE.
  rewrite !(sm_smul_distr (add:=GT_Add)), !(sm_smul_mul (smul:=GT_ScalarMult))
    by done.
  rewrite <- !(sm_add_assoc (add:=GT_Add)).
  rewrite <- !(sm_smul_add (add:=GT_Add)) by nia.
  rewrite (sm_add_assoc (add:=GT_Add)).
  rewrite <- (sm_smul_add (add:=GT_Add)) by nia.
  apply (lin_congr (add:=GT_Add) Hq); try nia.
  - apply response_zv_congr.
  - symmetry. apply response_cross_congr.
Qed.

Variables (tape : list Z) (x r : Z) (p : params) (pubk : bn256_G1).
Hypothesis u_range : 1 ≤ params_u p ≤ MaxInt64.
Hypothesis l_nonneg : 0 ≤ params_l p.
Hypothesis x_range : 0 ≤ x < params_u p ^ params_l p.
Hypothesis r_nonneg : 0 ≤ r.
Hypothesis fresh : tape_fresh tape.
Hypothesis valid : params_valid p pubk.

Let n : nat := Z.to_nat (params_l p).
Let c : Z := transcript_c tape x p.

Lemma transcript_V_at (i : nat) :
  (i < n)%nat →
  V_at (transcript tape x r p) i = blinded_signature p x tape i.
Proof.
  intros Hi. unfold V_at. cbn [transcript proof_V].
  apply entry_fmap_Some. unfold transcript_V. fold n.
  by rewrite lookup_tabulate.
Qed.

Lemma transcript_a_at (i : nat) :
  (i < n)%nat →
  a_at (transcript tape x r p) i
  = first_round (blinded_signature p x tape i) (drawn_s tape i) (drawn_t tape i).
Proof.
  intros Hi. unfold a_at. cbn [transcript proof_a].
  apply entry_fmap_Some. unfold transcript_a. fold n.
  by rewrite lookup_tabulate.
Qed.

Lemma transcript_zv_at (i : nat) :
  (i < n)%nat →
  zv_at (transcript tape x r p) i
  = (drawn_t tape i - drawn_v tape i * c) mod Order.
Proof.
  intros Hi. unfold zv_at. cbn [transcript proof_zv].
  apply entry_fmap_Some. fold n. by rewrite lookup_tabulate.
Qed.

(** The check of digit [i] passes on the transcript. *)
Lemma transcript_digit_check (i : nat) :
  (i < n)%nat →
  recomputed_a (transcript tape x r p) pubk i = a_at (transcript tape x r p) i.
Proof.
  intros Hi. unfold recomputed_a.
  rewrite transcript_V_at, transcript_a_at, transcript_zv_at by done.
  rewrite (transcript_zsig_at tape x r p i Hi).
  cbn [transcript proof_c]. fold c.
  unfold first_round, blinded_signature.
  pose proof (tape_nonneg tape fresh) as Htape.
  pose proof (digit_range x p u_range i Hi) as Hd.
  rewrite !Pair_ScalarMult_r by apply Htape.
  apply digit_algebra; try apply Htape; try lia.
  - apply c_nonneg.
  - apply valid. lia.
Qed.

Lemma transcript_well_formed :
  proof_well_formed (transcript tape x r p) (params_l p).
Proof.
  unfold proof_well_formed. cbn [transcript proof_V proof_a proof_zsig proof_zv].
  unfold transcript_V, transcript_a. fold n.
  repeat split; apply defined_upto_fmap_Some, length_tabulate.
Qed.

(** [Verify] accepts the transcript. *)
Lemma Verify_transcript :
  Verify (transcript tape x r p) p pubk = Returned (true, nil_error).
Proof.
  rewrite Verify_defined; [|apply Order_pos|apply transcript_well_formed].
  f_equal. f_equal. apply andb_true_intro. split.
  - apply bool_decide_eq_true_2. unfold consistency_check.
    by rewrite transcript_consistency.
  - rewrite (digit_checks_upto_true _ p). intros i Hi. unfold digit_check.
    by rewrite transcript_digit_check.
Qed.
End digit_check_complete.

(** ** Setup *)

Section setup.
Context `{BB : BBSig}.

Lemma Setup_body_eq (privk i : Z) (sigs : gmap string (option bn256_G2)) :
  Setup_body privk i sigs
  = Returned (<[FormatInt i := (sign i privk).1]> sigs).
Proof. unfold Setup_body. by destruct (sign i privk). Qed.

Global Instance FormatInt_inj : Inj (=) (=) FormatInt.
Proof. unfold FormatInt. apply _. Qed.

(** The signature table after the loop of [Setup]: one entry for each
    digit below [u], and nothing else. *)
Lemma Setup_signatures (privk u : Z) :
  ∃ sigs : gmap string (option bn256_G2),
    for_lt (Setup_body privk) u ∅ = Returned sigs
    ∧ (∀ d : Z, 0 ≤ d < u → sigs !! FormatInt d = Some (sign d privk).1)
    ∧ (u ≤ 0 → sigs = ∅).
Proof.
  destruct (decide (u ≤ 0)) as [Hu|Hu].
  { exists ∅. rewrite for_lt_nonpositive by done.
    split; [done|]. split; [intros d Hd; lia|done]. }
  unfold for_lt.
  destruct (for_range_invariant
    (λ j sigs, ∀ d : Z, 0 ≤ d < Z.of_nat j →
                 sigs !! FormatInt d = Some (sign d privk).1)
    (Setup_body privk) (Z.to_nat u) ∅) as (sigs & Hrun & Hsigs).
  - intros d Hd. lia.
  - intros j sigs Hj Hinv. eexists. split; [apply Setup_body_eq|].
    intros d Hd. destruct (decide (d = Z.of_nat j)) as [->|Hne].
    + by rewrite lookup_insert_eq.
    + rewrite lookup_insert_ne by (intros Heq%(inj FormatInt); lia).
      apply Hinv. lia.
  - exists sigs. split; [done|]. split; [|lia].
    intros d Hd. apply Hsigs. lia.
Qed.

(** [Setup] returns for every base and length, with a nil error. *)
Lemma Setup_Returned (kp : keypair) (u l : Z) :
  ∃ p : params,
    Setup kp u l = Returned (p, nil_error)
    ∧ params_H p = G2_ScalarBaseMult h
    ∧ params_kp p = kp ∧ params_u p = u ∧ params_l p = l
    ∧ (∀ d : Z, 0 ≤ d < u →
         map_index (params_signatures p) (FormatInt d) = (sign d (privk kp)).1)
    ∧ (u ≤ 0 → params_signatures p = ∅).
Proof.
  destruct (Setup_signatures (privk kp) u) as (sigs & Hrun & Hsigs & Hempty).
  eexists. unfold Setup. rewrite Hrun. cbn [mbind outcome_bind mret outcome_ret].
  split; [done|]. cbn. repeat split; try done.
  intros d Hd. unfold map_index. by rewrite Hsigs.
Qed.

Lemma Setup_signatures_present (kp : keypair) (u l : Z) (p : params) (e : error) :
  signing_succeeded kp u →
  Setup kp u l = Returned (p, e) →
  signatures_present p.
Proof.
  intros Hsign Hsetup.
  destruct (Setup_Returned kp u l) as (p' & Hp' & _ & _ & Hu & _ & Hsigs & _).
  rewrite Hsetup in Hp'. injection Hp' as <- _.
  intros d Hd. rewrite Hu in Hd. rewrite Hsigs by done. by apply Hsign.
Qed.

(** With a signature scheme that verifies, the parameters of [Setup] are
    valid under the public key of the key pair. *)
Lemma Setup_params_valid `{!BBSigLaws} (kp : keypair) (u l : Z) (p : params)
    (e : error) :
  keygen_returns kp →
  signing_succeeded kp u →
  Setup kp u l = Returned (p, e) →
  params_valid p (pubk kp).
Proof.
  intros Hkp Hsign Hsetup.
  split; [by eapply Setup_signatures_present|].
  destruct (Setup_Returned kp u l) as (p' & Hp' & _ & _ & Hu & _ & Hsigs & _).
  rewrite Hsetup in Hp'. injection Hp' as <- _.
  intros d Hd. rewrite Hu in Hd. unfold signature_valid, signature_of.
  rewrite Hsigs by done.
  destruct (Hsign d Hd) as [A HA]. rewrite HA. cbn [default].
  apply sign_verifies; [done|lia|done].
Qed.
End setup.

(** ** Tampering with the commitment-opening response *)

Section tamper.
Context `{BB : BBSig} {BL : Bn256Laws}.

Lemma foldl_G2_Add_shift (X Y : bn256_G2) (ws : list bn256_G2) :
  foldl G2_Add (G2_Add X Y) ws = G2_Add (foldl G2_Add X ws) Y.
Proof.
  revert X. induction ws as [|w ws IH]; intros X; [done|]. cbn [foldl].
  rewrite <- IH. f_equal.
  rewrite <- !(sm_add_assoc (add:=G2_Add)). f_equal.
  apply (sm_add_comm (add:=G2_Add)).
Qed.

(** Only the neutral element can be added without effect. *)
Lemma G2_Add_fixed (D Q : bn256_G2) : G2_Add D Q = D → Q = G2_Infinity.
Proof.
  intros HDQ. pose proof Order_pos as Hq.
  assert (G2_ScalarMult D Order = G2_Infinity) as HDq.
  { rewrite <- (G2_ScalarMult_0 D). apply (sm_smul_period (add:=G2_Add) D 0). lia. }
  assert (G2_Add (G2_ScalarMult D (Order - 1)) D = G2_Infinity) as Hinv.
  { rewrite <- (G2_ScalarMult_1 D) at 2.
    rewrite <- (sm_smul_add (add:=G2_Add)) by lia.
    by replace (Order - 1 + 1) with Order by lia. }
  rewrite <- (G2_Add_Infinity Q), <- Hinv.
  rewrite <- (sm_add_assoc (add:=G2_Add)). by rewrite HDQ.
Qed.

(** Incrementing zr adds H to the recomputed D. *)
Lemma recomputed_D_tamper_zr (pf : proof) (p : params) :
  0 ≤ proof_zr pf →
  recomputed_D (tamper_zr pf) p = G2_Add (recomputed_D pf p) (params_H p).
Proof.
  intros Hzr. pose proof Order_pos as Hq. unfold recomputed_D.
  cbn [tamper_zr proof_C proof_c proof_zr].
  rewrite (smul_mod (add:=G2_Add) Hq) by lia.
  rewrite (sm_smul_add (add:=G2_Add)), G2_ScalarMult_1 by lia.
  rewrite (sm_add_assoc (add:=G2_Add)), foldl_G2_Add_shift.
  done.
Qed.

(** If the consistency check holds on the group elements, it fails on
    the serializations once zr is incremented, unless H is neutral. *)
Lemma consistency_check_tamper_zr (pf : proof) (p : params) :
  0 ≤ proof_zr pf →
  params_H p ≠ G2_Infinity →
  recomputed_D pf p = proof_D pf →
  ¬ consistency_check (tamper_zr pf) p.
Proof.
  intros Hzr HH HD Hcheck. unfold consistency_check in Hcheck.
  apply G2_Marshal_inj in Hcheck.
  rewrite recomputed_D_tamper_zr in Hcheck by done.
  cbn [tamper_zr proof_D] in Hcheck. rewrite HD in Hcheck.
  by apply G2_Add_fixed in Hcheck.
Qed.

(** The generator H of [Setup] is not neutral. *)
Lemma Setup_H_not_Infinity : h mod Order ≠ 0 → G2_ScalarBaseMult h ≠ G2_Infinity.
Proof.
  intros Hh HH. apply G2_base_order in HH; [|done].
  apply Hh, Z.mod_divide; [|done]. pose proof Order_pos. lia.
Qed.

Lemma Verify_tamper_zr (pf : proof) (p : params) (pubk : bn256_G1) :
  proof_well_formed pf (params_l p) →
  0 ≤ proof_zr pf →
  params_H p ≠ G2_Infinity →
  recomputed_D pf p = proof_D pf →
  Verify (tamper_zr pf) p pubk = Returned (false, nil_error).
Proof.
  intros Hwf Hzr HH HD.
  rewrite Verify_defined; [|apply Order_pos|apply Hwf].
  rewrite bool_decide_eq_false_2; [done|].
  by apply consistency_check_tamper_zr.
Qed.
End tamper.

(** ** The small instance satisfies the laws *)

Section Zq_laws.
Import Zq.

Local Instance eqm_equiv : Equivalence (eqm q) := eqm_setoid q.
Local Instance eqm_add : Proper (eqm q ==> eqm q ==> eqm q) Z.add := Zplus_eqm q.
Local Instance eqm_sub : Proper (eqm q ==> eqm q ==> eqm q) Z.sub := Zminus_eqm q.
Local Instance eqm_mul : Proper (eqm q ==> eqm q ==> eqm q) Z.mul := Zmult_eqm q.
Local Instance eqm_opp : Proper (eqm q ==> eqm q) Z.opp := Zopp_eqm q.

(** Strip every inner reduction modulo [q], then compare as polynomials. *)
Local Ltac mod_ring :=
  change (eqm q ?a ?b) with (a mod q = b mod q);
  match goal with
  | |- ?a mod q = ?b mod q => change (eqm q a b)
  end;
  rewrite ?(Zmod_eqm q); unfold eqm; f_equal; ring.

Lemma q_pos : 0 < q.
Proof. reflexivity. Qed.

Lemma to_Z_of_Z (z : Z) : to_Z (of_Z z) = z mod q.
Proof. reflexivity. Qed.

Lemma of_Z_eq (a b : Z) : a mod q = b mod q → of_Z a = of_Z b.
Proof. intros Hab. apply dsig_eq. exact Hab. Qed.

Lemma to_Z_range (a : t) : 0 ≤ to_Z a < q.
Proof. apply (proj2_dsig a). Qed.

Lemma of_Z_to_Z (a : t) : of_Z (to_Z a) = a.
Proof. apply dsig_eq. cbn. apply Z.mod_small, to_Z_range. Qed.

Lemma to_Z_mod (a : t) : to_Z a mod q = to_Z a.
Proof. apply Z.mod_small, to_Z_range. Qed.

Lemma Zq_module : ScalarModule q add smul.
Proof.
  split; intros; unfold add, smul; apply of_Z_eq; rewrite ?to_Z_of_Z;
    try mod_ring.
  replace (to_Z P * (a + q)) with (to_Z P * a + to_Z P * q) by ring.
  apply Z_mod_plus_full.
Qed.

Lemma Zq_Marshal_inj (a b : t) : Marshal a = Marshal b → a = b.
Proof.
  unfold Marshal, bytes_of_string. intros Hab.
  apply (f_equal string_of_list_byte) in Hab.
  rewrite !string_of_list_byte_of_string in Hab.
  apply (inj pretty) in Hab. by apply dsig_eq.
Qed.

Lemma Zq_bn256_laws : Bn256Laws.
Proof.
  split.
  - exact q_pos.
  - exact Zq_module.
  - exact Zq_module.
  - intros P. cbn. unfold add. rewrite to_Z_of_Z.
    rewrite <- (of_Z_to_Z P) at 2. apply of_Z_eq. mod_ring.
  - intros P. cbn. unfold smul. apply of_Z_eq. mod_ring.
  - intros P. cbn. unfold smul.
    rewrite <- (of_Z_to_Z P) at 2. apply of_Z_eq. mod_ring.
  - intros k Hk. cbn. unfold smul. apply of_Z_eq. rewrite to_Z_of_Z. mod_ring.
  - intros k Hk. cbn. intros Heq%(f_equal to_Z). rewrite !to_Z_of_Z in Heq.
    apply Z.mod_divide; [pose proof q_pos; lia|]. by rewrite Heq.
  - exact Zq_Marshal_inj.
  - intros a b. cbn. unfold add, neg. rewrite !to_Z_of_Z.
    rewrite <- (of_Z_to_Z b) at 2. apply of_Z_eq. mod_ring.
  - intros P Q k Hk. cbn. unfold pair, smul. rewrite !to_Z_of_Z.
    apply of_Z_eq. mod_ring.
Qed.

Lemma Zq_bb_laws : @BBSigLaws bn256 bb.
Proof.
  split. intros kp d A Hkp Hd. cbn in Hkp.
  change (sign d (privk kp)) with (sign_inverse d (privk kp)).
  unfold sign_inverse.
  generalize (powmod (d + privk kp) (Z.to_pos (q - 2))). intros A0.
  destruct (decide ((A0 * (d + privk kp)) mod q = 1)) as [Hinv|Hinv];
    cbn [fst]; intros HA; [|discriminate HA].
  injection HA as <-.
  unfold E, G1, G2. cbn. rewrite Hkp.
  unfold add, pair, smul. rewrite !to_Z_of_Z.
  apply of_Z_eq.
  transitivity ((A0 * (d + privk kp)) mod q).
  { match goal with |- ?a mod q = ?b mod q => change (eqm q a b) end.
    repeat (setoid_rewrite (Zmod_eqm q)). unfold eqm; f_equal; ring. }
  rewrite Hinv. reflexivity.
Qed.
(** The verification equation of a signature, on the integers. *)
Lemma sign_inverse_verifies (k d : Z) (A : t) :
  (sign_inverse d k).1 = Some A →
  add (pair (of_Z k) A) (smul (pair (of_Z 1) A) d) = pair (of_Z 1) (of_Z 1).
Proof.
  unfold sign_inverse.
  generalize (powmod (d + k) (Z.to_pos (q - 2))). intros A0.
  destruct (decide ((A0 * (d + k)) mod q = 1)) as [Hinv|Hinv];
    cbn [fst]; intros HA; [|discriminate HA].
  injection HA as <-.
  unfold add, pair, smul. rewrite !to_Z_of_Z.
  apply of_Z_eq.
  transitivity ((A0 * (d + k)) mod q).
  { match goal with |- ?a mod q = ?b mod q => change (eqm q a b) end.
    repeat (setoid_rewrite (Zmod_eqm q)). unfold eqm; f_equal; ring. }
  rewrite Hinv. reflexivity.
Qed.
End Zq_laws.

(** ** The instance that reads scalars bit by bit satisfies the laws

    The laws are asked for non-negative scalars, which this instance reads
    as they are. *)

Lemma BitLen_nonneg (k : Z) : 0 ≤ Zbits.BitLen k.
Proof.
  unfold Zbits.BitLen. destruct (decide (k = 0)); [done|].
  pose proof (Z.log2_nonneg (Z.abs k)). lia.
Qed.

Lemma scalar_read_nonneg (k : Z) : 0 ≤ k → Zbits.scalar_read k = k.
Proof.
  intros Hk. unfold Zbits.scalar_read.
  pose proof (BitLen_nonneg k) as Hlen.
  rewrite Z.land_ones by lia. apply Z.mod_small. split; [done|].
  unfold Zbits.BitLen in *. destruct (decide (k = 0)) as [->|Hk0]; [done|].
  rewrite Z.abs_eq by done.
  pose proof (Z.log2_spec k ltac:(lia)) as [_ Hlt].
  replace (Z.log2 k + 1 + 1) with (Z.succ (Z.log2 k) + 1) by lia.
  pose proof (Z.log2_nonneg k).
  rewrite Z.pow_add_r, Z.pow_1_r by lia. lia.
Qed.

Lemma scalar_read_negative : Zbits.scalar_read (-5) = 11.
Proof. reflexivity. Qed.

Lemma Zbits_smul (a : Zq.t) (k : Z) : 0 ≤ k → Zbits.smul a k = Zq.smul a k.
Proof. intros Hk. unfold Zbits.smul. by rewrite scalar_read_nonneg. Qed.

Lemma Zbits_module : ScalarModule Zq.q Zq.add Zbits.smul.
Proof.
  pose proof Zq_module as M. pose proof q_pos as Hq. split.
  - apply (sm_add_assoc (add:=Zq.add)).
  - apply (sm_add_comm (add:=Zq.add)).
  - intros P a b Ha Hb. rewrite !Zbits_smul by lia.
    by apply (sm_smul_add (add:=Zq.add)).
  - intros P a b Ha Hb. rewrite !Zbits_smul by nia.
    by apply (sm_smul_mul (add:=Zq.add)).
  - intros P Q a Ha. rewrite !Zbits_smul by lia.
    by apply (sm_smul_distr (add:=Zq.add)).
  - intros P a Ha. rewrite !Zbits_smul by lia.
    by apply (sm_smul_period (add:=Zq.add)).
Qed.

Lemma Zbits_bn256_laws : @Bn256Laws Zbits.bn256.
Proof.
  pose proof Zq_bn256_laws as L. split.
  - exact q_pos.
  - exact Zbits_module.
  - exact Zbits_module.
  - apply (@G2_Add_Infinity Zq.bn256 L).
  - intros P. apply (@G2_ScalarMult_0 Zq.bn256 L).
  - intros P. apply (@G2_ScalarMult_1 Zq.bn256 L).
  - intros k Hk. cbn. rewrite Zbits_smul, !scalar_read_nonneg by lia.
    by apply (@G2_ScalarBaseMult_ScalarMult Zq.bn256 L).
  - intros k Hk. cbn. rewrite scalar_read_nonneg by done.
    by apply (@G2_base_order Zq.bn256 L).
  - apply (@G2_Marshal_inj Zq.bn256 L).
  - apply (@GT_Invert_cancel Zq.bn256 L).
  - intros P Q k Hk. cbn. rewrite !Zbits_smul by done.
    by apply (@Pair_ScalarMult_r Zq.bn256 L).
Qed.

Lemma Zbits_bb_laws : @BBSigLaws Zbits.bn256 Zbits.bb.
Proof.
  split. intros kp d A Hkp Hd.
  change (sign d (privk kp)) with (Zq.sign_inverse d (privk kp)).
  intros HA. apply sign_inverse_verifies in HA.
  change (pubk kp = Zq.of_Z (privk kp)) in Hkp.
  change (Zq.add (Zq.pair (pubk kp) A)
            (Zbits.smul (Zq.pair (Zq.of_Z (Zbits.scalar_read 1)) A) d)
          = Zq.pair (Zq.of_Z (Zbits.scalar_read 1))
              (Zq.of_Z (Zbits.scalar_read 1))).
  rewrite !scalar_read_nonneg, Zbits_smul, Hkp by lia. exact HA.
Qed.

(** ** SHA-256 *)

(** The test vector of FIPS 180-4 for the one-block message "abc". *)
Example Sum256_abc :
  FromByteArray (sha256.Sum256 (bytes_of_string "abc"))
  = (0xba7816bf8f01cfea414140de5dae2223b00361a396177a9cb410ff61f20015ad,
     nil_error).
Proof. vm_compute. reflexivity. Qed.

(** A message of two blocks. *)
Example Sum256_two_blocks :
  FromByteArray
    (sha256.Sum256
       (bytes_of_string
          "abcdbcdecdefdefgefghfghighijhijkijkljklmklmnlmnomnopnopq"))
  = (0x248d6a61d20638b8e5c026930c3e6039a33ce45964ff2167f6ecedd419db06c1,
     nil_error).
Proof. vm_compute. reflexivity. Qed.

(** ** The size of a digest *)









(** ** Hash *)

Section hash.
Context `{B : Bn256}.


(** The encodings of first-round values ([None] for a nil pointer). *)
Definition encodings (a : list (option bn256_GT)) : list (option string) :=
  (λ ai : option bn256_GT, GT_String <$> ai) <$> a.

(** The loop of [Hash] reads its input through [String] only. *)
Lemma Hash_body_encoding (a1 a2 : list (option bn256_GT)) (i : Z)
    (digest : sha256.digest) :
  encodings a1 = encodings a2 →
  Hash_body a1 i digest = Hash_body a2 i digest.
Proof.
  intros Henc. unfold Hash_body, slice_get.
  destruct (decide (0 ≤ i)) as [Hi|Hi]; [|done].
  apply (f_equal (λ l, l !! Z.to_nat i)) in Henc.
  unfold encodings in Henc. rewrite !list_lookup_fmap in Henc.
  destruct (a1 !! Z.to_nat i) as [[x1|]|], (a2 !! Z.to_nat i) as [[x2|]|];
    simplify_eq/=; try done.
  by rewrite Henc.
Qed.

Lemma for_range_ext {St} (body1 body2 : Z → St → outcome St) (i : Z) (n : nat)
    (s : St) :
  (∀ j st, body1 j st = body2 j st) →
  for_range body1 i n s = for_range body2 i n s.
Proof.
  intros Hext. revert i s. induction n as [|n IH]; intros i s; [done|].
  cbn [for_range]. rewrite Hext. destruct (body2 i s); [apply IH|done].
Qed.

(** [Hash] depends on its arguments through their encodings only. *)
Lemma Hash_encoding (a1 a2 : list (option bn256_GT)) (D1 D2 : bn256_G2) :
  encodings a1 = encodings a2 →
  G2_String D1 = G2_String D2 →
  Hash a1 D1 = Hash a2 D2.
Proof.
  intros Ha HD. unfold Hash, for_lt.
  assert (length a1 = length a2) as Hlen.
  { apply (f_equal length) in Ha. unfold encodings in Ha.
    by rewrite !length_fmap in Ha. }
  rewrite Hlen, HD.
  by rewrite (for_range_ext (Hash_body a1) (Hash_body a2))
    by (intros; by apply Hash_body_encoding).
Qed.
End hash.

(** ** Decompose and Prove outside the intended configuration *)

Lemma Decompose_Returned (x u l : Z) :
  u ≠ 0 → 0 ≤ l →
  ∃ ds : list Z,
    Decompose x u l = Returned (ds, nil_error) ∧ length ds = Z.to_nat l.
Proof.
  intros Hu Hl. unfold Decompose. rewrite make_slice_Returned by done.
  cbn [mbind outcome_bind]. unfold for_lt.
  destruct (for_range_invariant
    (λ _ st, length st.1 = Z.to_nat l) (Decompose_body u) (Z.to_nat l)
    (replicate (Z.to_nat l) 0, x)) as (st & Hrun & Hlen).
  - cbn. apply length_replicate.
  - intros j [result y] Hj Hinv. cbn [fst] in Hinv.
    unfold Decompose_body, Mod, big_Div, slice_set. cbn [fst snd].
    rewrite !decide_False by done. cbn [mbind outcome_bind].
    rewrite decide_True by lia. cbn [mbind outcome_bind mret outcome_ret].
    eexists. split; [done|]. cbn [fst]. by rewrite length_insert.
  - exists st.1. rewrite Hrun. done.
Qed.

Lemma Decompose_negative_length (x u l : Z) :
  l < 0 → Decompose x u l = Panicked MakeSliceLenOutOfRange.
Proof. intros Hl. unfold Decompose. by rewrite make_slice_negative. Qed.

Lemma Decompose_zero_base (x l : Z) :
  0 < l → Decompose x 0 l = Panicked DivisionByZero.
Proof.
  intros Hl. unfold Decompose. rewrite make_slice_Returned by lia.
  cbn [mbind outcome_bind]. by rewrite (for_lt_first_panics _ _ _ DivisionByZero).
Qed.

Section prove_panics.
Context `{BB : BBSig}.
Variables (tape : list Z) (x r : Z) (p : params).

Lemma Prove_negative_length :
  params_l p < 0 → Prove tape x r p = Panicked MakeSliceLenOutOfRange.
Proof. intros Hl. unfold Prove. by rewrite Decompose_negative_length. Qed.

Lemma Prove_zero_base :
  0 < params_l p → params_u p = 0 →
  Prove tape x r p = Panicked DivisionByZero.
Proof.
  intros Hl Hu. unfold Prove. rewrite Hu. by rewrite Decompose_zero_base.
Qed.

(** With an empty signature table and at least one digit, [Prove] stops
    on the nil signature (or on the nil scalar of an exhausted source). *)
Lemma Prove_no_signatures :
  0 < params_l p → params_u p ≠ 0 → params_signatures p = ∅ →
  Prove tape x r p = Panicked NilDereference.
Proof.
  intros Hl Hu Hsigs. unfold Prove.
  destruct (Decompose_Returned x (params_u p) (params_l p)) as (ds & -> & Hlen);
    [done|lia|].
  cbn [mbind outcome_bind]. cbv iota beta.
  rewrite !make_slice_Returned by lia. cbn [mbind outcome_bind].
  destruct tape as [|m tape']; [done|].
  cbn [rand_Int head tail deref mbind outcome_bind].
  rewrite (for_lt_first_panics _ _ _ NilDereference); [done|done|].
  unfold Prove_body. cbn [ps_tape ps_v].
  destruct (rand_Int tape') as [vi tape''].
  unfold slice_set. rewrite length_replicate, decide_True by lia.
  cbn [mbind outcome_bind].
  destruct ds as [|d ds]; [cbn in Hlen; lia|].
  unfold map_index. rewrite Hsigs.
  change (slice_get (d :: ds) 0) with (Returned (A:=Z) d).
  cbn [mbind outcome_bind]. by rewrite lookup_empty.
Qed.

(** With no digit at all, [Prove] returns a proof. *)
Lemma Prove_zero_length :
  0 < Order → params_l p = 0 → tape ≠ [] →
  ∃ pf : proof, Prove tape x r p = Returned (pf, nil_error).
Proof.
  intros Hq Hl Htape. destruct tape as [|m tape']; [done|].
  unfold Prove, Decompose. rewrite Hl.
  rewrite !make_slice_Returned by lia. cbn [mbind outcome_bind].
  rewrite for_lt_nonpositive by lia.
  cbn [mbind outcome_bind mret outcome_ret fst]. cbv iota beta.
  cbn [rand_Int head tail deref mbind outcome_bind].
  rewrite for_lt_nonpositive by lia.
  cbn [mbind outcome_bind ps_a ps_D ps_v ps_s ps_t ps_V].
  unfold Commit. cbv iota beta zeta.
  change (Hash (replicate (Z.to_nat 0) None)) with (Hash (Some <$> @nil bn256_GT)).
  rewrite Hash_spec. cbn [mbind outcome_bind]. cbv iota beta.
  rewrite Mod_pos by done. cbn [mbind outcome_bind].
  rewrite Mod_pos by done. cbn [mbind outcome_bind].
  rewrite for_lt_nonpositive by lia.
  cbn [mbind outcome_bind mret outcome_ret]. eauto.
Qed.
End prove_panics.

(** ** The example of the small instance *)

(** Closes a goal [a = b] between closed terms by evaluation. *)
Ltac by_evaluation :=
  match goal with |- _ = ?b => vm_cast_no_check (eq_refl b) end.

Lemma Zq_example_Setup :
  Setup Zq.example_kp 2 8 = Returned (Zq.example_params, nil_error).
Proof. by_evaluation. Qed.

Lemma Zq_example_signing : signing_succeeded Zq.example_kp 2.
Proof.
  intros d Hd. apply is_Some_alt.
  assert (d = 0 ∨ d = 1) as [-> | ->] by lia; vm_compute; exact I.
Qed.

Lemma Zq_example_signatures : signatures_present Zq.example_params.
Proof.
  intros d Hd. apply is_Some_alt.
  assert (d = 0 ∨ d = 1) as [-> | ->] by (cbn in Hd; lia); vm_compute; exact I.
Qed.

Lemma Zq_example_tape_fresh : tape_fresh Zq.example_tape.
Proof.
  unfold tape_fresh, Zq.example_tape. apply Forall_seqZ.
  intros z Hz. change Order with Zq.q. unfold Zq.q. lia.
Qed.

Lemma Zq_example_tape_long : tape_long_enough Zq.example_tape 8.
Proof. unfold tape_long_enough, Zq.example_tape. rewrite length_seqZ. lia. Qed.

(** ** What the stored scalars give away *)

(** From s and the response (s - d·c) mod q, an inverse of c gives d. *)
Lemma response_reveals (s d c c' q : Z) :
  (c * c') mod q = 1 →
  ((s - (s - d * c) mod q) * c') mod q = d mod q.
Proof.
  intros Hc. rewrite Zmult_mod, Zminus_mod_idemp_r.
  replace (s - (s - d * c)) with (d * c) by ring.
  rewrite <- Zmult_mod.
  replace (d * c * c') with (d * (c * c')) by ring.
  by rewrite Zmult_mod, Hc, Z.mul_1_r, Zmod_mod.
Qed.

Lemma digits_sum_mod (n : nat) (u x : Z) :
  0 < u →
  Zsum (tabulate (λ i, digits n u x !!! i * u ^ Z.of_nat i) n)
  = x mod u ^ Z.of_nat n.
Proof.
  intros Hu. rewrite <- (positional_sum_digits n u x Hu).
  unfold positional_sum. by rewrite imap_tabulate, length_digits.
Qed.

Section reveal.
Context `{BB : BBSig}.
Variables (tape : list Z) (x r : Z) (p : params).
Hypothesis u_range : 1 ≤ params_u p ≤ MaxInt64.
Hypothesis u_below : params_u p ≤ Order.
Hypothesis l_nonneg : 0 ≤ params_l p.

(** The fields m, zr, s, zsig and c of the transcript give r modulo the
    group order and x modulo u^l. *)
Lemma transcript_reveals (c' : Z) :
  (proof_c (transcript tape x r p) * c') mod Order = 1 →
  recovered_r (transcript tape x r p) c' = r mod Order
  ∧ recovered_x (transcript tape x r p) p c' = x mod params_u p ^ params_l p.
Proof.
  intros Hc. cbn [transcript proof_c] in Hc. split.
  - unfold recovered_r. cbn [transcript proof_m proof_zr].
    by apply response_reveals.
  - unfold recovered_x.
    rewrite (tabulate_ext _ (λ i, digit p x i * params_u p ^ Z.of_nat i)).
    + unfold digit. rewrite digits_sum_mod by lia. by rewrite Z2Nat.id.
    + intros i Hi. f_equal. unfold recovered_digit.
      rewrite transcript_zsig_at by done.
      assert (entry 0 (proof_s (transcript tape x r p)) i = drawn_s tape i)
        as ->.
      { cbn [transcript proof_s]. apply entry_fmap_Some.
        by rewrite lookup_tabulate. }
      rewrite response_reveals by done.
      pose proof (digits_range (Z.to_nat (params_l p)) (params_u p) x
                    ltac:(lia)) as Hall.
      rewrite Forall_lookup in Hall.
      assert (digits (Z.to_nat (params_l p)) (params_u p) x !! i
              = Some (digit p x i)) as Hd.
      { apply list_lookup_lookup_total_lt. by rewrite length_digits. }
      apply Hall in Hd. apply Z.mod_small. lia.
Qed.
End reveal.

(** * The claims of the specification *)

(** ** Decompose *)

(** C5. Decomposition round-trip: for every x in [0, u^l), with a base
    u ≥ 1 (an int64) and a length l ≥ 0, [Decompose] returns, with a nil
    error, exactly l integers, each in [0, u), the digit of weight u^i at
    position i (least significant first), whose positional sum
    Σ digit_i · u^i is x. *)
Theorem Decompose_roundtrip (x u l : Z) :
  1 ≤ u ≤ MaxInt64 → 0 ≤ l → 0 ≤ x < u ^ l →
  ∃ ds : list Z,
    Decompose x u l = Returned (ds, nil_error)
    ∧ length ds = Z.to_nat l
    ∧ Forall (λ d, 0 ≤ d < u) ds
    ∧ (∀ i : nat, (i < Z.to_nat l)%nat →
         ds !! i = Some ((x / u ^ Z.of_nat i) mod u))
    ∧ positional_sum u ds = x.
Proof.
  intros Hu Hl Hx. exists (digits (Z.to_nat l) u x).
  split; [by apply Decompose_digits|].
  split; [apply length_digits|].
  split; [apply digits_range; lia|].
  split; [intros i Hi; apply lookup_digits; lia|].
  rewrite positional_sum_digits by lia.
  rewrite Z2Nat.id by done. apply Z.mod_small. lia.
Qed.

Lemma Decompose_roundtrip_witness :
  ∃ ds : list Z,
    Decompose 200 2 8 = Returned (ds, nil_error)
    ∧ length ds = Z.to_nat 8
    ∧ Forall (λ d, 0 ≤ d < 2) ds
    ∧ (∀ i : nat, (i < Z.to_nat 8)%nat →
         ds !! i = Some ((200 / 2 ^ Z.of_nat i) mod 2))
    ∧ positional_sum 2 ds = 200.
Proof.
  apply (Decompose_roundtrip 200 2 8); [unfold MaxInt64; lia | lia | lia].
Defined.

(** C10. For every x ≥ u^l (u ≥ 1 an int64, l ≥ 0), [Decompose] returns a
    nil error and exactly l digits, which are the base-u digits of
    x mod u^l: it returns what it returns on x mod u^l, the positional sum
    of the digits is x mod u^l and not x, and nothing signals the loss of
    the high-order part. *)
Theorem Decompose_truncates (x u l : Z) :
  1 ≤ u ≤ MaxInt64 → 0 ≤ l → u ^ l ≤ x →
  ∃ ds : list Z,
    Decompose x u l = Returned (ds, nil_error)
    ∧ length ds = Z.to_nat l
    ∧ Forall (λ d, 0 ≤ d < u) ds
    ∧ Decompose (x mod u ^ l) u l = Returned (ds, nil_error)
    ∧ positional_sum u ds = x mod u ^ l
    ∧ positional_sum u ds ≠ x.
Proof.
  intros Hu Hl Hx. exists (digits (Z.to_nat l) u x).
  assert (0 < u ^ l) as Hpow by (apply Z.pow_pos_nonneg; lia).
  pose proof (Z.mod_pos_bound x (u ^ l) Hpow) as Hmod.
  split; [by apply Decompose_digits|].
  split; [apply length_digits|].
  split; [apply digits_range; lia|].
  split.
  { rewrite Decompose_digits by done. do 2 f_equal.
    pose proof (digits_mod (Z.to_nat l) u x ltac:(lia)) as Hdig.
    by rewrite Z2Nat.id in Hdig by done. }
  rewrite positional_sum_digits, Z2Nat.id by lia.
  split; [done|lia].
Qed.

Lemma Decompose_truncates_witness :
  ∃ ds : list Z,
    Decompose 300 2 8 = Returned (ds, nil_error)
    ∧ length ds = Z.to_nat 8
    ∧ Forall (λ d, 0 ≤ d < 2) ds
    ∧ Decompose (300 mod 2 ^ 8) 2 8 = Returned (ds, nil_error)
    ∧ positional_sum 2 ds = 300 mod 2 ^ 8
    ∧ positional_sum 2 ds ≠ 300.
Proof.
  apply (Decompose_truncates 300 2 8); [unfold MaxInt64; lia | lia | lia].
Defined.

(** ** Prove and Verify *)

(** C3. Completeness: with the parameters that [Setup] returns for a key
    pair of [keygen] whose signing succeeded, a base u ≥ 1 (an int64) and
    a length l ≥ 0, for every x in [0, u^l), every blinding scalar r ≥ 0
    and a random source that delivers the 1 + 3·l scalars of [0, Order)
    that [Prove] draws, [Prove] returns a proof with a nil error and
    [Verify] on this proof, the same parameters and the public key of the
    authority returns true. *)
Theorem Prove_Verify_complete `{BB : BBSig} {BL : Bn256Laws} {SL : BBSigLaws}
    (kp : keypair) (u l : Z) (p : params) (x r : Z) (tape : list Z) :
  keygen_returns kp →
  signing_succeeded kp u →
  Setup kp u l = Returned (p, nil_error) →
  1 ≤ u ≤ MaxInt64 → 0 ≤ l →
  0 ≤ x < u ^ l → 0 ≤ r →
  tape_long_enough tape l → tape_fresh tape →
  ∃ pf : proof,
    Prove tape x r p = Returned (pf, nil_error)
    ∧ Verify pf p (pubk kp) = Returned (true, nil_error).
Proof.
  intros Hkp Hsign Hsetup Hu Hl Hx Hr Hlong Hfresh.
  pose proof (Setup_params_valid kp u l p _ Hkp Hsign Hsetup) as Hvalid.
  destruct (Setup_Returned kp u l) as (p' & Hp' & _ & _ & Hpu & Hpl & _).
  rewrite Hsetup in Hp'. injection Hp' as <-.
  rewrite <- Hpu in Hu, Hx. rewrite <- Hpl in Hl, Hx, Hlong.
  exists (transcript tape x r p). split.
  - apply Prove_transcript; [apply Order_pos|done|done|apply Hvalid|done].
  - by apply Verify_transcript.
Qed.

Lemma Prove_Verify_complete_witness :
  ∃ pf : proof,
    Prove Zq.example_tape 200 5 Zq.example_params = Returned (pf, nil_error)
    ∧ Verify pf Zq.example_params (pubk Zq.example_kp)
      = Returned (true, nil_error).
Proof.
  apply (@Prove_Verify_complete Zq.bn256 Zq.bb Zq_bn256_laws Zq_bb_laws
           Zq.example_kp 2 8 Zq.example_params 200 5 Zq.example_tape).
  - reflexivity.
  - exact Zq_example_signing.
  - exact Zq_example_Setup.
  - unfold MaxInt64. lia.
  - lia.
  - lia.
  - lia.
  - exact Zq_example_tape_long.
  - exact Zq_example_tape_fresh.
Defined.

(** ** A negative blinding *)

Section negative_blinding.
#[local] Existing Instance Zbits.bn256.
#[local] Existing Instance Zbits.bb.

Lemma Zbits_example_signatures : signatures_present Zbits.example_params.
Proof.
  intros d Hd. apply is_Some_alt.
  assert (d = 0 ∨ d = 1) as [-> | ->] by (cbn in Hd; lia); vm_compute; exact I.
Qed.

(** C3, as the specification states it (every blinding r), fails for a
    negative r.  [Commit] hands r to [ScalarMult] as it is (lines 69, 178),
    while the response zr = (m - r·c) mod order is reduced (lines 183-184),
    so the proof verifies only if the library multiplies by a negative
    scalar as by its residue.  It need not: in the instance [Zbits], which
    satisfies every law asked of the library ([Zbits_bn256_laws],
    [Zbits_bb_laws]) and reads the scalar -5 as 11, every other hypothesis
    of completeness holds in Scenario A, [Prove] on x = 200 and r = -5
    returns a proof, and [Verify] returns false on it.  With r = 5 in
    place of -5, [Verify] returns true. *)
Lemma Prove_Verify_fails_for_negative_r :
  keygen_returns Zbits.example_kp
  ∧ signing_succeeded Zbits.example_kp 2
  ∧ Setup Zbits.example_kp 2 8 = Returned (Zbits.example_params, nil_error)
  ∧ 0 ≤ 200 < 2 ^ 8
  ∧ tape_long_enough Zq.example_tape 8
  ∧ tape_fresh Zq.example_tape
  ∧ ∃ pf : proof,
      Prove Zq.example_tape 200 (-5) Zbits.example_params
      = Returned (pf, nil_error)
      ∧ Verify pf Zbits.example_params (pubk Zbits.example_kp)
        = Returned (false, nil_error)
      ∧ Verify (transcript Zq.example_tape 200 5 Zbits.example_params)
          Zbits.example_params (pubk Zbits.example_kp)
        = Returned (true, nil_error).
Proof.
  split; [reflexivity|]. split.
  { intros d Hd. apply is_Some_alt.
    assert (d = 0 ∨ d = 1) as [-> | ->] by lia; vm_compute; exact I. }
  split; [by_evaluation|]. split; [lia|].
  split; [exact Zq_example_tape_long|].
  split; [exact Zq_example_tape_fresh|].
  exists (transcript Zq.example_tape 200 (-5) Zbits.example_params). split.
  - apply Prove_transcript.
    + reflexivity.
    + cbn. unfold MaxInt64. lia.
    + cbn. lia.
    + exact Zbits_example_signatures.
    + exact Zq_example_tape_long.
  - split; by_evaluation.
Qed.
End negative_blinding.

(** C8. Tamper sensitivity of the commitment-opening response: under the
    hypotheses of completeness, and with the constant h of [Setup] not a
    multiple of the group order, the proof that [Prove] returns verifies,
    and once its zr is replaced by (zr + 1) mod Order, every other field
    unchanged, [Verify] returns false. *)
Theorem Verify_rejects_incremented_zr `{BB : BBSig} {BL : Bn256Laws}
    {SL : BBSigLaws}
    (kp : keypair) (u l : Z) (p : params) (x r : Z) (tape : list Z) :
  keygen_returns kp →
  signing_succeeded kp u →
  Setup kp u l = Returned (p, nil_error) →
  h mod Order ≠ 0 →
  1 ≤ u ≤ MaxInt64 → 0 ≤ l →
  0 ≤ x < u ^ l → 0 ≤ r →
  tape_long_enough tape l → tape_fresh tape →
  ∃ pf : proof,
    Prove tape x r p = Returned (pf, nil_error)
    ∧ Verify pf p (pubk kp) = Returned (true, nil_error)
    ∧ Verify (tamper_zr pf) p (pubk kp) = Returned (false, nil_error).
Proof.
  intros Hkp Hsign Hsetup Hh Hu Hl Hx Hr Hlong Hfresh.
  pose proof (Setup_params_valid kp u l p _ Hkp Hsign Hsetup) as Hvalid.
  destruct (Setup_Returned kp u l) as (p' & Hp' & HH & _ & Hpu & Hpl & _).
  rewrite Hsetup in Hp'. injection Hp' as <-.
  rewrite <- Hpu in Hu, Hx. rewrite <- Hpl in Hl, Hx, Hlong.
  exists (transcript tape x r p). split; [|split].
  - apply Prove_transcript; [apply Order_pos|done|done|apply Hvalid|done].
  - by apply Verify_transcript.
  - apply Verify_tamper_zr.
    + apply transcript_well_formed.
    + cbn [transcript proof_zr]. apply Z.mod_pos_bound, Order_pos.
    + rewrite HH. by apply Setup_H_not_Infinity.
    + by apply transcript_consistency.
Qed.

Lemma Verify_rejects_incremented_zr_witness :
  ∃ pf : proof,
    Prove Zq.example_tape 200 5 Zq.example_params = Returned (pf, nil_error)
    ∧ Verify pf Zq.example_params (pubk Zq.example_kp)
      = Returned (true, nil_error)
    ∧ Verify (tamper_zr pf) Zq.example_params (pubk Zq.example_kp)
      = Returned (false, nil_error).
Proof.
  apply (@Verify_rejects_incremented_zr Zq.bn256 Zq.bb Zq_bn256_laws Zq_bb_laws
           Zq.example_kp 2 8 Zq.example_params 200 5 Zq.example_tape).
  - reflexivity.
  - exact Zq_example_signing.
  - exact Zq_example_Setup.
  - vm_compute. discriminate.
  - unfold MaxInt64. lia.
  - lia.
  - lia.
  - lia.
  - exact Zq_example_tape_long.
  - exact Zq_example_tape_fresh.
Defined.

(** C4. On a proof whose slices hold a value for each of the l digits
    (any other proof makes the Go code panic), [Verify] returns a boolean
    with a nil error, and this boolean is true if and only if the
    consistency check (the recomputed D' serializes identically to D) and
    the per-digit check of every index below l hold; if one check fails
    the boolean is false. *)
Theorem Verify_true_iff_all_checks `{BB : BBSig}
    (pf : proof) (p : params) (pubk : bn256_G1) :
  0 < Order →
  proof_well_formed pf (params_l p) →
  ∃ b : bool,
    Verify pf p pubk = Returned (b, nil_error)
    ∧ (b = true ↔ all_checks pf p pubk)
    ∧ (b = false ↔ ¬ all_checks pf p pubk).
Proof.
  intros Hq Hwf.
  exists (bool_decide (consistency_check pf p)
          && digit_checks_upto pf pubk (Z.to_nat (params_l p))).
  split; [by apply Verify_defined|].
  assert (bool_decide (consistency_check pf p)
          && digit_checks_upto pf pubk (Z.to_nat (params_l p)) = true
          ↔ all_checks pf p pubk) as Hiff.
  { unfold all_checks.
    rewrite andb_true_iff, bool_decide_eq_true, (digit_checks_upto_true pf p).
    done. }
  split; [done|].
  rewrite <- Hiff. by destruct (_ && _).
Qed.

Lemma Verify_true_iff_all_checks_witness :
  ∃ b : bool,
    Verify (transcript Zq.example_tape 200 5 Zq.example_params)
      Zq.example_params (pubk Zq.example_kp) = Returned (b, nil_error)
    ∧ (b = true ↔ all_checks (transcript Zq.example_tape 200 5 Zq.example_params)
                    Zq.example_params (pubk Zq.example_kp))
    ∧ (b = false ↔ ¬ all_checks (transcript Zq.example_tape 200 5 Zq.example_params)
                       Zq.example_params (pubk Zq.example_kp)).
Proof.
  apply (@Verify_true_iff_all_checks Zq.bn256 Zq.bb).
  - reflexivity.
  - apply transcript_well_formed.
Defined.

(** ** What the proof holds *)

(** C1 does not hold of the code: [Prove] keeps the blinding scalar m and
    the per-digit scalars s_i, t_i in the fields m, s, t of the proof that
    it returns (lines 155, 162-163), and they give the witness away.  With
    parameters that hold a signature for each digit of a base u ≥ 1 (an
    int64, not above the group order), a length l ≥ 0 and a random source
    that delivers the 1 + 3·l scalars, for every x and r the returned
    proof holds m, the s_i and the t_i as drawn, and whoever holds it
    computes, from its fields alone and an inverse c' of its challenge
    modulo the group order, r modulo the order as (m - zr)·c' and
    x modulo u^l (x itself, for x in the range) as
    Σ ((s_i - zsig_i)·c' mod order) · u^i. *)
Theorem Prove_reveals_witness `{BB : BBSig}
    (tape : list Z) (x r : Z) (p : params) :
  0 < Order →
  1 ≤ params_u p ≤ MaxInt64 → params_u p ≤ Order → 0 ≤ params_l p →
  signatures_present p →
  tape_long_enough tape (params_l p) →
  ∃ pf : proof,
    Prove tape x r p = Returned (pf, nil_error)
    ∧ proof_c pf = transcript_c tape x p
    ∧ proof_m pf = drawn_m tape
    ∧ proof_s pf = Some <$> tabulate (drawn_s tape) (Z.to_nat (params_l p))
    ∧ proof_t pf = Some <$> tabulate (drawn_t tape) (Z.to_nat (params_l p))
    ∧ ¬ no_witness_data tape x p pf
    ∧ ∀ c' : Z, (proof_c pf * c') mod Order = 1 →
        recovered_r pf c' = r mod Order
        ∧ recovered_x pf p c' = x mod params_u p ^ params_l p.
Proof.
  intros Hq Hu Hub Hl Hsigs Hlong. exists (transcript tape x r p).
  split; [by apply Prove_transcript|].
  do 4 (split; [done|]).
  split; [|intros c'; by apply transcript_reveals].
  intros Hno. apply (Hno (drawn_m tape)).
  - unfold witness_scalars. apply list_elem_of_further, elem_of_app. right.
    apply list_elem_of_lookup. exists 0%nat.
    rewrite lookup_take_lt by lia.
    apply list_lookup_lookup_total_lt.
    unfold tape_long_enough in Hlong. lia.
  - unfold proof_scalars. cbn [transcript proof_m].
    apply list_elem_of_further, list_elem_of_here.
Qed.

(** In Scenario A (x = 200, r = 5) the holder of the proof finds 5 and
    200, with the inverse of the challenge that Fermat's theorem gives. *)
Lemma Prove_reveals_witness_witness :
  ∃ (pf : proof) (c' : Z),
    Prove Zq.example_tape 200 5 Zq.example_params = Returned (pf, nil_error)
    ∧ proof_m pf = 1000
    ∧ (proof_c pf * c') mod Order = 1
    ∧ recovered_r pf c' = 5
    ∧ recovered_x pf Zq.example_params c' = 200.
Proof.
  destruct (@Prove_reveals_witness Zq.bn256 Zq.bb
              Zq.example_tape 200 5 Zq.example_params)
    as (pf & HP & Hc & Hm & _ & _ & _ & Hrec).
  - reflexivity.
  - cbn. unfold MaxInt64. lia.
  - cbn. unfold Zq.q. lia.
  - cbn. lia.
  - exact Zq_example_signatures.
  - exact Zq_example_tape_long.
  - exists pf,
      (Zq.powmod (transcript_c Zq.example_tape 200 Zq.example_params)
         (Z.to_pos (Zq.q - 2))).
    assert ((proof_c pf
             * Zq.powmod (transcript_c Zq.example_tape 200 Zq.example_params)
                 (Z.to_pos (Zq.q - 2))) mod Order = 1) as Hinv.
    { rewrite Hc. vm_compute. reflexivity. }
    destruct (Hrec _ Hinv) as [Hr Hx].
    split; [exact HP|]. split; [exact Hm|]. split; [exact Hinv|].
    split; [exact Hr|exact Hx].
Defined.

(** The same, without the extraction: [Prove] returns the transcript of
    the specification with a nil error, for every x and r; its fields m,
    s and t hold the blinding scalar m and the per-digit scalars s_i, t_i
    as drawn; x, r, the digits and the v_i enter only through V, C, c and
    the reduced responses zr, zsig, zv of the transcript. *)
Theorem Prove_returns_transcript `{BB : BBSig}
    (tape : list Z) (x r : Z) (p : params) :
  0 < Order →
  1 ≤ params_u p ≤ MaxInt64 → 0 ≤ params_l p →
  signatures_present p →
  tape_long_enough tape (params_l p) →
  ∃ pf : proof,
    Prove tape x r p = Returned (pf, nil_error)
    ∧ pf = transcript tape x r p
    ∧ proof_m pf = drawn_m tape
    ∧ proof_s pf = Some <$> tabulate (drawn_s tape) (Z.to_nat (params_l p))
    ∧ proof_t pf = Some <$> tabulate (drawn_t tape) (Z.to_nat (params_l p))
    ∧ ¬ no_witness_data tape x p pf.
Proof.
  intros Hq Hu Hl Hsigs Hlong. exists (transcript tape x r p).
  split; [by apply Prove_transcript|].
  do 4 (split; [done|]).
  intros Hno. apply (Hno (drawn_m tape)).
  - unfold witness_scalars. apply list_elem_of_further, elem_of_app. right.
    apply list_elem_of_lookup. exists 0%nat.
    rewrite lookup_take_lt by lia.
    apply list_lookup_lookup_total_lt.
    unfold tape_long_enough in Hlong. lia.
  - unfold proof_scalars. cbn [transcript proof_m].
    apply list_elem_of_further, list_elem_of_here.
Qed.

Lemma Prove_returns_transcript_witness :
  ∃ pf : proof,
    Prove Zq.example_tape 200 5 Zq.example_params = Returned (pf, nil_error)
    ∧ pf = transcript Zq.example_tape 200 5 Zq.example_params
    ∧ proof_m pf = drawn_m Zq.example_tape
    ∧ proof_s pf = Some <$> tabulate (drawn_s Zq.example_tape) (Z.to_nat 8)
    ∧ proof_t pf = Some <$> tabulate (drawn_t Zq.example_tape) (Z.to_nat 8)
    ∧ ¬ no_witness_data Zq.example_tape 200 Zq.example_params pf.
Proof.
  apply (@Prove_returns_transcript Zq.bn256 Zq.bb
           Zq.example_tape 200 5 Zq.example_params).
  - reflexivity.
  - cbn. unfold MaxInt64. lia.
  - cbn. lia.
  - exact Zq_example_signatures.
  - exact Zq_example_tape_long.
Defined.

(** In the example of Scenario A the proof that [Prove] returns holds the
    blinding scalar m = 1000 in its field m (and s_0 = 1002 in its field
    s). *)
Lemma Prove_retains_witness_data :
  ∃ pf : proof,
    Prove Zq.example_tape 200 5 Zq.example_params = Returned (pf, nil_error)
    ∧ proof_m pf = 1000
    ∧ proof_s pf !! 0%nat = Some (Some 1002)
    ∧ 1000 ∈ witness_scalars Zq.example_tape 200 Zq.example_params
    ∧ 1000 ∈ proof_scalars pf
    ∧ ¬ no_witness_data Zq.example_tape 200 Zq.example_params pf.
Proof.
  exists (transcript Zq.example_tape 200 5 Zq.example_params).
  assert (1000 ∈ witness_scalars Zq.example_tape 200 Zq.example_params) as Hw.
  { unfold witness_scalars. do 9 apply list_elem_of_further.
    apply list_elem_of_here. }
  assert (1000 ∈ proof_scalars (transcript Zq.example_tape 200 5 Zq.example_params))
    as Hp.
  { unfold proof_scalars. apply list_elem_of_further, list_elem_of_here. }
  split.
  { apply Prove_transcript.
    - reflexivity.
    - cbn. unfold MaxInt64. lia.
    - cbn. lia.
    - exact Zq_example_signatures.
    - exact Zq_example_tape_long. }
  split; [reflexivity|]. split; [reflexivity|].
  split; [exact Hw|]. split; [exact Hp|].
  intros Hno. exact (Hno 1000 Hw Hp).
Qed.

(** C2, as the code has it: [Prove] has no range check.  For every x
    outside [0, u^l), under the hypotheses under which it returns for an x
    inside, [Prove] returns a proof and a nil error.  (The code marks the
    missing check with a TODO.) *)
Theorem Prove_out_of_range_returns `{BB : BBSig}
    (tape : list Z) (x r : Z) (p : params) :
  0 < Order →
  1 ≤ params_u p ≤ MaxInt64 → 0 ≤ params_l p →
  signatures_present p →
  tape_long_enough tape (params_l p) →
  ¬ (0 ≤ x < params_u p ^ params_l p) →
  ∃ pf : proof, Prove tape x r p = Returned (pf, nil_error).
Proof.
  intros Hq Hu Hl Hsigs Hlong _. exists (transcript tape x r p).
  by apply Prove_transcript.
Qed.

Lemma Prove_out_of_range_returns_witness :
  ∃ pf : proof,
    Prove Zq.example_tape 300 5 Zq.example_params = Returned (pf, nil_error).
Proof.
  apply (@Prove_out_of_range_returns Zq.bn256 Zq.bb
           Zq.example_tape 300 5 Zq.example_params).
  - reflexivity.
  - cbn. unfold MaxInt64. lia.
  - cbn. lia.
  - exact Zq_example_signatures.
  - exact Zq_example_tape_long.
  - cbn. lia.
Defined.

(** ** Hash *)




(** C7. Determinism of [Hash]: two calls whose first-round values have the
    same encodings, entry by entry, and whose aggregate elements have the
    same encoding return the same result; in particular two calls on
    identical values do. *)
Theorem Hash_deterministic `{B : Bn256}
    (a1 a2 : list (option bn256_GT)) (D1 D2 : bn256_G2) :
  encodings a1 = encodings a2 →
  G2_String D1 = G2_String D2 →
  Hash a1 D1 = Hash a2 D2.
Proof. apply Hash_encoding. Qed.

Lemma Hash_deterministic_witness :
  Hash (Some <$> Zq.example_a) Zq.example_D
  = Hash (Some <$> Zq.example_a) Zq.example_D.
Proof.
  apply (@Hash_deterministic Zq.bn256); reflexivity.
Defined.

(** ** Setup *)

(** C9, as the code has it. [Setup] returns parameters and a nil error for
    every u and l: it does not check them.  [Prove] with the parameters it
    returns panics when l < 0 (the length of [make]), when l > 0 and u = 0
    (division by zero) and when l > 0 and u < 0 (nil signature, the table
    being empty); with l = 0 it returns a proof. *)
Theorem Setup_returns_for_every_base `{BB : BBSig} (kp : keypair) (u l : Z) :
  ∃ p : params,
    Setup kp u l = Returned (p, nil_error)
    ∧ (∀ tape x r, l < 0 →
         Prove tape x r p = Panicked MakeSliceLenOutOfRange)
    ∧ (∀ tape x r, 0 < l → u = 0 →
         Prove tape x r p = Panicked DivisionByZero)
    ∧ (∀ tape x r, 0 < l → u < 0 →
         Prove tape x r p = Panicked NilDereference)
    ∧ (∀ tape x r, l = 0 → 0 < Order → tape ≠ [] →
         ∃ pf : proof, Prove tape x r p = Returned (pf, nil_error)).
Proof.
  destruct (Setup_Returned kp u l) as (p & Hp & _ & _ & Hpu & Hpl & _ & Hempty).
  exists p. split; [done|]. repeat split.
  - intros tape x r Hl. apply Prove_negative_length. lia.
  - intros tape x r Hl Hu. apply Prove_zero_base; lia.
  - intros tape x r Hl Hu. apply Prove_no_signatures; [lia|lia|].
    apply Hempty. lia.
  - intros tape x r Hl Hq Htape. apply Prove_zero_length; [done|lia|done].
Qed.

(** C9, as the specification states it, fails: [Setup] with u = 0 and
    l = 0 returns parameters, and [Prove] with them returns a proof. *)
Lemma Setup_nonpositive_returns :
  ∃ (p : params) (pf : proof),
    Setup Zq.example_kp 0 0 = Returned (p, nil_error)
    ∧ Prove [1000] 0 5 p = Returned (pf, nil_error).
Proof.
  destruct (Setup_Returned Zq.example_kp 0 0) as (p & Hp & _ & _ & _ & Hpl & _).
  destruct (Prove_zero_length [1000] 0 5 p) as [pf Hpf]; [reflexivity|done|done|].
  by exists p, pf.
Qed.


(** * Further properties of the code *)

(** ** Commit *)

Section commit.
Context `{BB : BBSig} {BL : Bn256Laws}.

Lemma Commit_lin (x r : Z) (p : params) :
  0 ≤ x →
  (Commit x r p).1
  = lin (add:=G2_Add) (smul:=G2_ScalarMult) G2 (params_H p) x r.
Proof.
  intros Hx. unfold Commit, lin. cbn [fst].
  by rewrite G2_ScalarBaseMult_ScalarMult.
Qed.
End commit.

(** X1. [Commit] is additively homomorphic on non-negative scalars: the
    sum of the commitments to (x1, r1) and (x2, r2) under the same
    parameters is the commitment to (x1 + x2, r1 + r2); its error is nil. *)
Theorem Commit_homomorphic `{BB : BBSig} {BL : Bn256Laws}
    (x1 r1 x2 r2 : Z) (p : params) :
  0 ≤ x1 → 0 ≤ r1 → 0 ≤ x2 → 0 ≤ r2 →
  G2_Add (Commit x1 r1 p).1 (Commit x2 r2 p).1 = (Commit (x1 + x2) (r1 + r2) p).1
  ∧ (Commit (x1 + x2) (r1 + r2) p).2 = nil_error.
Proof.
  intros Hx1 Hr1 Hx2 Hr2. split; [|done].
  rewrite !Commit_lin by lia. by apply lin_add.
Qed.

Lemma Commit_homomorphic_witness :
  G2_Add (Commit 200 5 Zq.example_params).1 (Commit 44 9 Zq.example_params).1
  = (Commit (200 + 44) (5 + 9) Zq.example_params).1
  ∧ (Commit (200 + 44) (5 + 9) Zq.example_params).2 = nil_error.
Proof.
  apply (@Commit_homomorphic Zq.bn256 Zq.bb Zq_bn256_laws); lia.
Defined.

(** X2. [Commit] sees its scalars modulo the group order only: for
    non-negative x and r, committing to (x, r) and to (x mod Order,
    r mod Order) gives the same element, so x and x + Order have the same
    commitments. *)
Theorem Commit_modulo_Order `{BB : BBSig} {BL : Bn256Laws}
    (x r : Z) (p : params) :
  0 ≤ x → 0 ≤ r →
  (Commit x r p).1 = (Commit (x mod Order) (r mod Order) p).1
  ∧ (Commit (x + Order) r p).1 = (Commit x r p).1.
Proof.
  intros Hx Hr. pose proof Order_pos as Hq.
  pose proof (Z.mod_pos_bound x Order Hq).
  pose proof (Z.mod_pos_bound r Order Hq).
  rewrite !Commit_lin by lia. split.
  - apply (lin_congr Hq); try lia; by rewrite Zmod_mod.
  - apply (lin_congr Hq); try lia.
    rewrite <- (Z.mul_1_l Order) at 1. apply Z_mod_plus_full.
Qed.

Lemma Commit_modulo_Order_witness :
  (Commit 200 5 Zq.example_params).1
  = (Commit (200 mod Order) (5 mod Order) Zq.example_params).1
  ∧ (Commit (200 + Order) 5 Zq.example_params).1
    = (Commit 200 5 Zq.example_params).1.
Proof.
  apply (@Commit_modulo_Order Zq.bn256 Zq.bb Zq_bn256_laws); lia.
Defined.

(** ** Decompose on every base *)

(** The digits that the loop of [Decompose] computes, with the Euclidean
    division of math/big. *)
Fixpoint euclid_digits (n : nat) (u x : Z) : list Z :=
match n with
| O => []
| S n' => euclid_mod x u :: euclid_digits n' u (euclid_div x u)
end.

(** What is left of [x] after [n] rounds. *)
Fixpoint euclid_rest (n : nat) (u x : Z) : Z :=
match n with
| O => x
| S n' => euclid_rest n' u (euclid_div x u)
end.

Lemma euclid_div_mod (x u : Z) :
  u ≠ 0 → x = u * euclid_div x u + euclid_mod x u.
Proof.
  intros Hu. unfold euclid_div, euclid_mod.
  pose proof (Z.div_mod x (Z.abs u) ltac:(lia)) as Hdm.
  rewrite Z.mul_assoc, <- Z.abs_sgn. lia.
Qed.

Lemma euclid_mod_range (x u : Z) : u ≠ 0 → 0 ≤ euclid_mod x u < Z.abs u.
Proof. intros Hu. unfold euclid_mod. apply Z.mod_pos_bound. lia. Qed.

Lemma length_euclid_digits (n : nat) (u x : Z) :
  length (euclid_digits n u x) = n.
Proof.
  revert x. induction n as [|n IH]; intros x; [done|]. cbn. by rewrite IH.
Qed.

Lemma euclid_digits_range (n : nat) (u x : Z) :
  u ≠ 0 → Forall (λ d, 0 ≤ d < Z.abs u) (euclid_digits n u x).
Proof.
  intros Hu. revert x. induction n as [|n IH]; intros x; cbn.
  - constructor.
  - constructor; [by apply euclid_mod_range | apply IH].
Qed.

Lemma euclid_digits_sum (n : nat) (u x : Z) :
  u ≠ 0 →
  x = positional_sum u (euclid_digits n u x) + u ^ Z.of_nat n * euclid_rest n u x.
Proof.
  intros Hu. revert x. induction n as [|n IH]; intros x.
  - cbn. lia.
  - cbn [euclid_digits euclid_rest]. rewrite positional_sum_cons.
    rewrite Nat2Z.inj_succ, Z.pow_succ_r by lia.
    pose proof (IH (euclid_div x u)) as Hrec.
    pose proof (euclid_div_mod x u Hu) as Hdm.
    set (S' := positional_sum u (euclid_digits n u (euclid_div x u))) in *.
    set (R := euclid_rest n u (euclid_div x u)) in *.
    nia.
Qed.

Lemma Decompose_body_euclid (u x old : Z) (pre post : list Z) :
  u ≠ 0 → is_int64 u →
  Decompose_body u (Z.of_nat (length pre)) (pre ++ old :: post, x)
  = Returned (pre ++ euclid_mod x u :: post, euclid_div x u).
Proof.
  intros Hu Hint. unfold Decompose_body, Mod, big_Div. cbn [fst snd].
  rewrite !decide_False by done. cbn [mbind outcome_bind].
  rewrite slice_set_middle. cbn [mbind outcome_bind mret outcome_ret].
  rewrite Int64_id; [done|].
  pose proof (euclid_mod_range x u Hu).
  unfold is_int64, MinInt64, MaxInt64 in *. lia.
Qed.

Lemma Decompose_loop_euclid (u : Z) (n : nat) :
  u ≠ 0 → is_int64 u →
  ∀ (pre post : list Z) (x : Z),
    length post = n →
    for_range (Decompose_body u) (Z.of_nat (length pre)) n (pre ++ post, x)
    = Returned (pre ++ euclid_digits n u x, euclid_rest n u x).
Proof.
  intros Hu Hint. induction n as [|n IH]; intros pre post x Hlen.
  - by destruct post.
  - destruct post as [|old post]; [done|]. cbn [for_range].
    rewrite Decompose_body_euclid by done. cbn [mbind outcome_bind].
    replace (Z.of_nat (length pre) + 1)
      with (Z.of_nat (length (pre ++ [euclid_mod x u])))
      by (rewrite length_app; simpl; lia).
    replace (pre ++ euclid_mod x u :: post)
      with ((pre ++ [euclid_mod x u]) ++ post)
      by (by rewrite <- (assoc_L (++))).
    rewrite IH by (simpl in Hlen; lia).
    by rewrite <- (assoc_L (++)).
Qed.

(** X3. For every non-zero int64 base u, negative bases and negative x
    included, and every length l ≥ 0, [Decompose] returns with a nil error
    exactly l digits, none negative and each below |u|, and x differs from
    their positional sum Σ digit_i · u^i by a multiple of u^l. *)
Theorem Decompose_every_base (x u l : Z) :
  u ≠ 0 → is_int64 u → 0 ≤ l →
  ∃ ds : list Z,
    Decompose x u l = Returned (ds, nil_error)
    ∧ length ds = Z.to_nat l
    ∧ Forall (λ d, 0 ≤ d < Z.abs u) ds
    ∧ (u ^ l | x - positional_sum u ds).
Proof.
  intros Hu Hint Hl. exists (euclid_digits (Z.to_nat l) u x).
  split.
  { unfold Decompose. rewrite make_slice_Returned by done.
    cbn [mbind outcome_bind]. unfold for_lt.
    pose proof (Decompose_loop_euclid u (Z.to_nat l) Hu Hint []
                  (replicate (Z.to_nat l) 0) x) as Hloop.
    change (Z.of_nat (length [])) with 0 in Hloop. cbn [app] in Hloop.
    by rewrite Hloop by apply length_replicate. }
  split; [apply length_euclid_digits|].
  split; [by apply euclid_digits_range|].
  exists (euclid_rest (Z.to_nat l) u x).
  pose proof (euclid_digits_sum (Z.to_nat l) u x Hu) as Hsum.
  rewrite Z2Nat.id in Hsum by done. lia.
Qed.

Lemma Decompose_every_base_witness :
  ∃ ds : list Z,
    Decompose (-7) (-2) 4 = Returned (ds, nil_error)
    ∧ length ds = Z.to_nat 4
    ∧ Forall (λ d, 0 ≤ d < Z.abs (-2)) ds
    ∧ ((-2) ^ 4 | -7 - positional_sum (-2) ds).
Proof.
  apply (Decompose_every_base (-7) (-2) 4);
    [lia | unfold is_int64, MinInt64, MaxInt64; lia | lia].
Defined.

(** X4. The edges of [Decompose]: a negative length panics in [make], a
    zero base with at least one digit panics with a division by zero, and
    with l = 0 the result is the empty slice and a nil error, whatever the
    base (zero included). *)
Theorem Decompose_edges (x u l : Z) :
  (l < 0 → Decompose x u l = Panicked MakeSliceLenOutOfRange)
  ∧ (0 < l → u = 0 → Decompose x u l = Panicked DivisionByZero)
  ∧ (l = 0 → Decompose x u l = Returned ([], nil_error)).
Proof.
  split; [apply Decompose_negative_length|]. split.
  - intros Hl ->. by apply Decompose_zero_base.
  - intros ->. reflexivity.
Qed.

(** ** The signature table of Setup *)

Section setup_table.
Context `{BB : BBSig}.

Lemma Setup_table (privk u : Z) :
  ∃ sigs : gmap string (option bn256_G2),
    for_lt (Setup_body privk) u ∅ = Returned sigs
    ∧ (∀ d : Z, 0 ≤ d < u → sigs !! FormatInt d = Some (sign d privk).1)
    ∧ (∀ key : string, (∀ d : Z, 0 ≤ d < u → key ≠ FormatInt d) →
         sigs !! key = None).
Proof.
  destruct (decide (u ≤ 0)) as [Hu|Hu].
  { exists ∅. rewrite for_lt_nonpositive by done.
    split; [done|]. split; [intros d Hd; lia|]. intros key _.
    apply lookup_empty. }
  unfold for_lt.
  destruct (for_range_invariant
    (λ j sigs,
       (∀ d : Z, 0 ≤ d < Z.of_nat j →
          sigs !! FormatInt d = Some (sign d privk).1)
       ∧ (∀ key : string, (∀ d : Z, 0 ≤ d < Z.of_nat j → key ≠ FormatInt d) →
            sigs !! key = None))
    (Setup_body privk) (Z.to_nat u) ∅) as (sigs & Hrun & Hin & Hout).
  - split; [intros d Hd; lia|]. intros key _. apply lookup_empty.
  - intros j sigs Hj [Hin Hout]. eexists. split; [apply Setup_body_eq|]. split.
    + intros d Hd. destruct (decide (d = Z.of_nat j)) as [->|Hne].
      * by rewrite lookup_insert_eq.
      * rewrite lookup_insert_ne by (intros Heq%(inj FormatInt); lia).
        apply Hin. lia.
    + intros key Hkey. rewrite lookup_insert_ne.
      * apply Hout. intros d Hd. apply Hkey. lia.
      * intros Heq. apply (Hkey (Z.of_nat j)); [lia|done].
  - exists sigs. split; [done|]. split.
    + intros d Hd. apply Hin. lia.
    + intros key Hkey. apply Hout. intros d Hd. apply Hkey. lia.
Qed.
End setup_table.

(** X5. [Setup] returns, with a nil error, parameters that carry u, l, the
    key pair and H = g2^h, and whose table maps the decimal numeral of each
    digit d of [0, u) to the pointer that sign(d, privk) returned, and has
    no other key. *)
Theorem Setup_table_exact `{BB : BBSig} (kp : keypair) (u l : Z) :
  ∃ p : params,
    Setup kp u l = Returned (p, nil_error)
    ∧ params_H p = G2_ScalarBaseMult h
    ∧ params_kp p = kp ∧ params_u p = u ∧ params_l p = l
    ∧ (∀ d : Z, 0 ≤ d < u →
         params_signatures p !! FormatInt d = Some (sign d (privk kp)).1)
    ∧ (∀ key : string, (∀ d : Z, 0 ≤ d < u → key ≠ FormatInt d) →
         params_signatures p !! key = None).
Proof.
  destruct (Setup_table (privk kp) u) as (sigs & Hrun & Hin & Hout).
  eexists. unfold Setup. rewrite Hrun.
  cbn [mbind outcome_bind mret outcome_ret].
  split; [done|]. cbn. by repeat split.
Qed.

(** X6. [Setup] drops the error of [sign]: when signing the lowest digit of
    x fails, [Setup] still returns parameters and a nil error, and [Prove]
    on x with these parameters panics on the nil signature. *)
Theorem Setup_drops_sign_error `{BB : BBSig}
    (kp : keypair) (u l : Z) (tape : list Z) (x r : Z) :
  1 ≤ u ≤ MaxInt64 → 0 < l →
  (sign (x mod u) (privk kp)).1 = None →
  ∃ p : params,
    Setup kp u l = Returned (p, nil_error)
    ∧ Prove tape x r p = Panicked NilDereference.
Proof.
  intros Hu Hl Hsign.
  destruct (Setup_Returned kp u l) as (p & Hp & _ & _ & Hpu & Hpl & Hsigs & _).
  exists p. split; [done|].
  unfold Prove. rewrite Hpu, Hpl, Decompose_digits by lia.
  cbn [mbind outcome_bind]. cbv iota beta.
  rewrite !make_slice_Returned by lia. cbn [mbind outcome_bind].
  destruct tape as [|m tape']; [done|].
  cbn [rand_Int head tail deref mbind outcome_bind].
  rewrite (for_lt_first_panics _ _ _ NilDereference); [done|done|].
  unfold Prove_body. cbn [ps_tape ps_v].
  destruct (rand_Int tape') as [vi tape''].
  unfold slice_set. rewrite length_replicate, decide_True by lia.
  cbn [mbind outcome_bind].
  destruct (Z.to_nat l) as [|n] eqn:Hn; [lia|]. cbn [digits].
  change (slice_get (x mod u :: digits n u (x / u)) 0)
    with (Returned (A:=Z) (x mod u)).
  cbn [mbind outcome_bind].
  rewrite Hsigs by (by apply Z.mod_pos_bound; lia). by rewrite Hsign.
Qed.

Lemma Setup_drops_sign_error_witness :
  ∃ p : params,
    Setup (Zq.keygen Zq.q) 2 8 = Returned (p, nil_error)
    ∧ Prove Zq.example_tape 200 5 p = Panicked NilDereference.
Proof.
  apply (@Setup_drops_sign_error Zq.bn256 Zq.bb).
  - unfold MaxInt64. lia.
  - lia.
  - by_evaluation.
Defined.

(** ** The shape of the proof that Prove returns *)

Lemma Forall_tabulate {A} (P : A → Prop) (f : nat → A) (n : nat) :
  (∀ i : nat, (i < n)%nat → P (f i)) → Forall P (tabulate f n).
Proof.
  intros Hf. unfold tabulate. apply Forall_fmap, Forall_forall.
  intros i Hi%elem_of_seq. apply Hf. lia.
Qed.

Lemma Forall_Some_fmap {A} (P : A → Prop) (l : list A) :
  Forall P l → Forall (λ o : option A, ∃ v, o = Some v ∧ P v) (Some <$> l).
Proof.
  intros Hl. apply Forall_fmap. eapply Forall_impl; [exact Hl|].
  intros v Hv. by exists v.
Qed.

(** X7. Under the hypotheses under which [Prove] returns, each of the six
    slices of the returned proof (V, a, s, t, zsig, zv) has exactly l
    entries and none of them is nil. *)
Theorem Prove_slices_filled `{BB : BBSig}
    (tape : list Z) (x r : Z) (p : params) :
  0 < Order →
  1 ≤ params_u p ≤ MaxInt64 → 0 ≤ params_l p →
  signatures_present p →
  tape_long_enough tape (params_l p) →
  ∃ pf : proof,
    Prove tape x r p = Returned (pf, nil_error)
    ∧ length (proof_V pf) = Z.to_nat (params_l p)
    ∧ length (proof_a pf) = Z.to_nat (params_l p)
    ∧ length (proof_s pf) = Z.to_nat (params_l p)
    ∧ length (proof_t pf) = Z.to_nat (params_l p)
    ∧ length (proof_zsig pf) = Z.to_nat (params_l p)
    ∧ length (proof_zv pf) = Z.to_nat (params_l p)
    ∧ Forall is_Some (proof_V pf) ∧ Forall is_Some (proof_a pf)
    ∧ Forall is_Some (proof_s pf) ∧ Forall is_Some (proof_t pf)
    ∧ Forall is_Some (proof_zsig pf) ∧ Forall is_Some (proof_zv pf).
Proof.
  intros Hq Hu Hl Hsigs Hlong. exists (transcript tape x r p).
  split; [by apply Prove_transcript|].
  cbn [transcript proof_V proof_a proof_s proof_t proof_zsig proof_zv].
  unfold transcript_V, transcript_a.
  rewrite !length_fmap, !length_tabulate.
  repeat split; apply Forall_fmap, Forall_true; intros v; by exists v.
Qed.

Lemma Prove_slices_filled_witness :
  ∃ pf : proof,
    Prove Zq.example_tape 200 5 Zq.example_params = Returned (pf, nil_error)
    ∧ length (proof_V pf) = Z.to_nat 8
    ∧ length (proof_a pf) = Z.to_nat 8
    ∧ length (proof_s pf) = Z.to_nat 8
    ∧ length (proof_t pf) = Z.to_nat 8
    ∧ length (proof_zsig pf) = Z.to_nat 8
    ∧ length (proof_zv pf) = Z.to_nat 8
    ∧ Forall is_Some (proof_V pf) ∧ Forall is_Some (proof_a pf)
    ∧ Forall is_Some (proof_s pf) ∧ Forall is_Some (proof_t pf)
    ∧ Forall is_Some (proof_zsig pf) ∧ Forall is_Some (proof_zv pf).
Proof.
  apply (@Prove_slices_filled Zq.bn256 Zq.bb
           Zq.example_tape 200 5 Zq.example_params).
  - reflexivity.
  - cbn. unfold MaxInt64. lia.
  - cbn. lia.
  - exact Zq_example_signatures.
  - exact Zq_example_tape_long.
Defined.

(** X8. Under the same hypotheses, the challenge c, the response zr and
    every response zsig_i and zv_i of the returned proof are reduced: they
    lie in [0, Order). *)
Theorem Prove_responses_reduced `{BB : BBSig}
    (tape : list Z) (x r : Z) (p : params) :
  0 < Order →
  1 ≤ params_u p ≤ MaxInt64 → 0 ≤ params_l p →
  signatures_present p →
  tape_long_enough tape (params_l p) →
  ∃ pf : proof,
    Prove tape x r p = Returned (pf, nil_error)
    ∧ 0 ≤ proof_c pf < Order
    ∧ 0 ≤ proof_zr pf < Order
    ∧ Forall (λ o, ∃ z, o = Some z ∧ 0 ≤ z < Order) (proof_zsig pf)
    ∧ Forall (λ o, ∃ z, o = Some z ∧ 0 ≤ z < Order) (proof_zv pf).
Proof.
  intros Hq Hu Hl Hsigs Hlong. exists (transcript tape x r p).
  split; [by apply Prove_transcript|].
  cbn [transcript proof_c proof_zr proof_zsig proof_zv].
  split; [by apply Z.mod_pos_bound|]. split; [by apply Z.mod_pos_bound|].
  split; apply Forall_Some_fmap, Forall_tabulate; intros i _;
    by apply Z.mod_pos_bound.
Qed.

Lemma Prove_responses_reduced_witness :
  ∃ pf : proof,
    Prove Zq.example_tape 200 5 Zq.example_params = Returned (pf, nil_error)
    ∧ 0 ≤ proof_c pf < Order
    ∧ 0 ≤ proof_zr pf < Order
    ∧ Forall (λ o, ∃ z, o = Some z ∧ 0 ≤ z < Order) (proof_zsig pf)
    ∧ Forall (λ o, ∃ z, o = Some z ∧ 0 ≤ z < Order) (proof_zv pf).
Proof.
  apply (@Prove_responses_reduced Zq.bn256 Zq.bb
           Zq.example_tape 200 5 Zq.example_params).
  - reflexivity.
  - cbn. unfold MaxInt64. lia.
  - cbn. lia.
  - exact Zq_example_signatures.
  - exact Zq_example_tape_long.
Defined.

(** ** Verify on malformed proofs *)

Lemma for_range_Panicked {St} (body : Z → St → outcome St) (n : nat) (i : Z)
    (s : St) (why : panic) :
  for_range body i n s = Panicked why →
  ∃ (j : Z) (st : St), body j st = Panicked why.
Proof.
  revert i s. induction n as [|n IH]; intros i s Hrun; [done|].
  cbn [for_range] in Hrun. destruct (body i s) as [s'|why'] eqn:Hbody.
  - cbn in Hrun. by apply IH in Hrun.
  - cbn in Hrun. injection Hrun as ->. by exists i, s.
Qed.

Lemma slice_get_deref_Panicked {A} (s : list (option A)) (i : Z) (why : panic) :
  slice_get s i ≫= deref = Panicked why →
  why = IndexOutOfRange ∨ why = NilDereference.
Proof.
  unfold slice_get. destruct (decide (0 ≤ i)); [|intros [= <-]; by left].
  destruct (s !! Z.to_nat i) as [[x|]|]; cbn; intros [= <-]; auto.
Qed.

Section verify_panics.
Context `{BB : BBSig}.
Variables (pf : proof) (p : params) (pubk : bn256_G1).
Hypothesis Order_positive : 0 < Order.

Lemma Verify_D_body_Panicked (i : Z) (D : bn256_G2) (why : panic) :
  Verify_D_body pf p i D = Panicked why →
  why = IndexOutOfRange ∨ why = NilDereference.
Proof.
  unfold Verify_D_body.
  destruct (slice_get (proof_zsig pf) i ≫= deref) as [z|why'] eqn:Hz.
  - cbn [mbind outcome_bind]. by rewrite Mod_pos.
  - cbn [mbind outcome_bind]. intros [= <-].
    by apply slice_get_deref_Panicked in Hz.
Qed.

Lemma Verify_a_body_Panicked (i : Z) (r2 : bool) (why : panic) :
  Verify_a_body pf pubk i r2 = Panicked why →
  why = IndexOutOfRange ∨ why = NilDereference.
Proof.
  unfold Verify_a_body, Verify_digit.
  destruct (slice_get (proof_V pf) i ≫= deref) as [V|w] eqn:HV;
    cbn [mbind outcome_bind];
    [|intros [= <-]; by apply slice_get_deref_Panicked in HV].
  destruct (slice_get (proof_zsig pf) i ≫= deref) as [zsig|w] eqn:Hzsig;
    cbn [mbind outcome_bind];
    [|intros [= <-]; by apply slice_get_deref_Panicked in Hzsig].
  destruct (slice_get (proof_zv pf) i ≫= deref) as [zv|w] eqn:Hzv;
    cbn [mbind outcome_bind mret outcome_ret];
    [|intros [= <-]; by apply slice_get_deref_Panicked in Hzv].
  destruct (slice_get (proof_a pf) i ≫= deref) as [ai|w] eqn:Hai;
    cbn [mbind outcome_bind mret outcome_ret];
    [done|intros [= <-]; by apply slice_get_deref_Panicked in Hai].
Qed.

Lemma Verify_Panicked (why : panic) :
  Verify pf p pubk = Panicked why →
  why = IndexOutOfRange ∨ why = NilDereference.
Proof.
  unfold Verify, Verify_D, for_lt.
  destruct (for_range (Verify_D_body pf p) 0 _ _) as [D|w] eqn:HD;
    cbn [mbind outcome_bind].
  - destruct (for_range (Verify_a_body pf pubk) 0 _ _) as [r2|w] eqn:Hr2;
      cbn [mbind outcome_bind]; [done|]. intros [= <-].
    apply for_range_Panicked in Hr2 as (j & st & Hbody).
    by apply Verify_a_body_Panicked in Hbody.
  - intros [= <-]. apply for_range_Panicked in HD as (j & st & Hbody).
    by apply Verify_D_body_Panicked in Hbody.
Qed.
End verify_panics.

(** X9. [Verify] never answers false to a malformed proof: when one of the
    slices V, a, zsig, zv lacks a non-nil entry for one of the l digits,
    [Verify] panics, with an index out of range or a nil dereference, and
    returns nothing. *)
Theorem Verify_malformed_panics `{BB : BBSig}
    (pf : proof) (p : params) (pubk : bn256_G1) :
  0 < Order →
  ¬ proof_well_formed pf (params_l p) →
  ∃ why : panic,
    Verify pf p pubk = Panicked why
    ∧ (why = IndexOutOfRange ∨ why = NilDereference).
Proof.
  intros Hq Hwf. destruct (Verify pf p pubk) as [[b e]|why] eqn:Hrun.
  - by apply Verify_Returned in Hrun as [Hwf' _].
  - exists why. split; [done|]. by eapply Verify_Panicked.
Qed.

Lemma Verify_malformed_panics_witness :
  ∃ why : panic,
    Verify (tamper_zr {| proof_V := []; proof_D := Zq.example_D;
                         proof_C := Zq.example_D; proof_a := [];
                         proof_s := []; proof_t := []; proof_zsig := [];
                         proof_zv := []; proof_c := 0; proof_m := 0;
                         proof_zr := 0 |})
      Zq.example_params (pubk Zq.example_kp) = Panicked why
    ∧ (why = IndexOutOfRange ∨ why = NilDereference).
Proof.
  apply (@Verify_malformed_panics Zq.bn256 Zq.bb).
  - reflexivity.
  - intros (HV & _). destruct (HV 0%nat) as [V HV0]; [cbn; lia|].
    discriminate HV0.
Defined.

(** ** What Verify reads *)

(** X10. [Verify] reads the fields V, D, C, a, zsig, zv, c, zr of the
    proof and H, u, l of the parameters, and nothing else: two calls that
    agree on these return the same result, whatever the fields s, t, m of
    the proofs and the signature tables and key pairs of the parameters. *)
Theorem Verify_reads_only `{BB : BBSig}
    (pf pf' : proof) (p p' : params) (pubk : bn256_G1) :
  proof_V pf = proof_V pf' → proof_D pf = proof_D pf' →
  proof_C pf = proof_C pf' → proof_a pf = proof_a pf' →
  proof_zsig pf = proof_zsig pf' → proof_zv pf = proof_zv pf' →
  proof_c pf = proof_c pf' → proof_zr pf = proof_zr pf' →
  params_H p = params_H p' → params_u p = params_u p' →
  params_l p = params_l p' →
  Verify pf p pubk = Verify pf' p' pubk.
Proof.
  intros HV HD HC Ha Hzsig Hzv Hc Hzr HH Hu Hl.
  unfold Verify, Verify_D, for_lt.
  rewrite (for_range_ext (Verify_D_body pf p) (Verify_D_body pf' p'))
    by (intros j D; unfold Verify_D_body; by rewrite Hzsig, Hu).
  rewrite (for_range_ext (Verify_a_body pf pubk) (Verify_a_body pf' pubk))
    by (intros j r2; unfold Verify_a_body, Verify_digit;
        by rewrite HV, Hzsig, Hzv, Hc, Ha).
  by rewrite HC, Hc, HH, Hzr, Hl, HD.
Qed.

(** The proof without the fields that [Verify] does not read. *)
Definition erase_s_t_m `{Bn256} (pf : proof) : proof :=
{| proof_V := proof_V pf; proof_D := proof_D pf; proof_C := proof_C pf;
   proof_a := proof_a pf; proof_s := []; proof_t := [];
   proof_zsig := proof_zsig pf; proof_zv := proof_zv pf;
   proof_c := proof_c pf; proof_m := 0; proof_zr := proof_zr pf |}.

Lemma Verify_reads_only_witness :
  Verify (transcript Zq.example_tape 200 5 Zq.example_params)
    Zq.example_params (pubk Zq.example_kp)
  = Verify (erase_s_t_m (transcript Zq.example_tape 200 5 Zq.example_params))
      Zq.example_params (pubk Zq.example_kp).
Proof.
  exact (@Verify_reads_only Zq.bn256 Zq.bb
           (transcript Zq.example_tape 200 5 Zq.example_params)
           (erase_s_t_m (transcript Zq.example_tape 200 5 Zq.example_params))
           Zq.example_params Zq.example_params (pubk Zq.example_kp)
           eq_refl eq_refl eq_refl eq_refl eq_refl eq_refl eq_refl eq_refl
           eq_refl eq_refl eq_refl).
Defined.

(** ** The challenge is not recomputed *)

(** A proof built without [Prove]: any commitment [C], challenge [c] and
    responses, with [D] and the [a_i] set to the values that [Verify]
    recomputes from them. *)
Definition unchecked_proof `{BBSig} (p : params) (pubk : bn256_G1)
    (C : bn256_G2) (c zr : Z) (Vs : list bn256_G2) (zsigs zvs : list Z)
  : proof :=
let pf0 :=
  {| proof_V := Some <$> Vs; proof_D := G2_Infinity; proof_C := C;
     proof_a := []; proof_s := []; proof_t := [];
     proof_zsig := Some <$> zsigs; proof_zv := Some <$> zvs;
     proof_c := c; proof_m := 0; proof_zr := zr |} in
{| proof_V := Some <$> Vs; proof_D := recomputed_D pf0 p; proof_C := C;
   proof_a := Some <$> tabulate (recomputed_a pf0 pubk) (Z.to_nat (params_l p));
   proof_s := []; proof_t := [];
   proof_zsig := Some <$> zsigs; proof_zv := Some <$> zvs;
   proof_c := c; proof_m := 0; proof_zr := zr |}.

(** X11. [Verify] does not call [Hash]: it takes the challenge c from the
    proof.  For every commitment C, every scalar c, every response zr and
    every l elements V_i and responses zsig_i, zv_i, the proof whose D and
    a_i are the values that [Verify] recomputes from them is accepted:
    [Verify] returns true, whatever the value committed in C. *)
Theorem Verify_accepts_unchecked_challenge `{BB : BBSig}
    (p : params) (pubk : bn256_G1) (C : bn256_G2) (c zr : Z)
    (Vs : list bn256_G2) (zsigs zvs : list Z) :
  0 < Order →
  length Vs = Z.to_nat (params_l p) →
  length zsigs = Z.to_nat (params_l p) →
  length zvs = Z.to_nat (params_l p) →
  Verify (unchecked_proof p pubk C c zr Vs zsigs zvs) p pubk
  = Returned (true, nil_error).
Proof.
  intros Hq HVs Hzsigs Hzvs.
  rewrite Verify_defined; [|done|].
  - f_equal. f_equal. apply andb_true_intro. split.
    + by apply bool_decide_eq_true_2.
    + rewrite (digit_checks_upto_true _ p). intros i Hi.
      unfold digit_check, a_at. cbn [unchecked_proof proof_a].
      by rewrite (entry_fmap_Some _ _ i _ (lookup_tabulate _ _ i Hi)).
  - unfold proof_well_formed. cbn [unchecked_proof proof_V proof_a proof_zsig proof_zv].
    repeat split; apply defined_upto_fmap_Some; try done.
    apply length_tabulate.
Qed.

Lemma Verify_accepts_unchecked_challenge_witness :
  Verify (unchecked_proof Zq.example_params (pubk Zq.example_kp)
            (G2_ScalarBaseMult 1000000) 1 2
            (replicate 8 Zq.example_D) (replicate 8 3) (replicate 8 4))
    Zq.example_params (pubk Zq.example_kp)
  = Returned (true, nil_error).
Proof.
  apply (@Verify_accepts_unchecked_challenge Zq.bn256 Zq.bb);
    reflexivity.
Defined.

(** ** Tampering with D *)

(** The proof with its field [D] replaced. *)
Definition set_D `{Bn256} (pf : proof) (D : bn256_G2) : proof :=
{| proof_V := proof_V pf; proof_D := D; proof_C := proof_C pf;
   proof_a := proof_a pf; proof_s := proof_s pf; proof_t := proof_t pf;
   proof_zsig := proof_zsig pf; proof_zv := proof_zv pf;
   proof_c := proof_c pf; proof_m := proof_m pf; proof_zr := proof_zr pf |}.

(** X12. Tamper sensitivity of D: if [Verify] returns true on a proof, it
    returns false on the same proof with D replaced by any other element
    of G2 (the serialization of G2 being canonical). *)
Theorem Verify_rejects_changed_D `{BB : BBSig} {BL : Bn256Laws}
    (pf : proof) (p : params) (pubk : bn256_G1) (D' : bn256_G2) :
  Verify pf p pubk = Returned (true, nil_error) →
  D' ≠ proof_D pf →
  Verify (set_D pf D') p pubk = Returned (false, nil_error).
Proof.
  intros Hrun HD'. pose proof Order_pos as Hq.
  pose proof (Verify_Returned _ _ _ _ _ Hrun) as [Hwf _].
  rewrite Verify_defined in Hrun by done.
  injection Hrun as Hchecks. apply andb_true_iff in Hchecks as [Hcons _].
  apply bool_decide_eq_true_1 in Hcons. unfold consistency_check in Hcons.
  apply G2_Marshal_inj in Hcons.
  rewrite Verify_defined; [|done|exact Hwf].
  rewrite (bool_decide_eq_false_2 (consistency_check (set_D pf D') p)); [done|].
  unfold consistency_check. intros Heq%G2_Marshal_inj.
  apply HD'. rewrite <- Hcons. symmetry. exact Heq.
Qed.

Lemma Verify_rejects_changed_D_witness :
  Verify (set_D (transcript Zq.example_tape 200 5 Zq.example_params)
            G2_Infinity)
    Zq.example_params (pubk Zq.example_kp)
  = Returned (false, nil_error).
Proof.
  apply (@Verify_rejects_changed_D Zq.bn256 Zq.bb Zq_bn256_laws).
  - by_evaluation.
  - intros Heq%(f_equal Zq.to_Z). vm_compute in Heq. discriminate Heq.
Defined.

(** ** Hash on nil and on concatenations *)

Lemma for_range_add {St} (body : Z → St → outcome St) (n1 n2 : nat) (i : Z)
    (s : St) :
  for_range body i (n1 + n2) s
  = for_range body i n1 s ≫= for_range body (i + Z.of_nat n1) n2.
Proof.
  revert i s. induction n1 as [|n1 IH]; intros i s.
  - cbn. by rewrite Z.add_0_r.
  - cbn [Nat.add for_range]. destruct (body i s) as [s'|why]; [|done].
    cbn [mbind outcome_bind]. rewrite IH. do 2 f_equal. lia.
Qed.

(** X13. [Hash] panics on a nil first-round value: if the entry after the
    non-nil entries [pre] is nil, [Hash] panics with a nil dereference and
    returns no challenge. *)
Theorem Hash_nil_entry_panics `{B : Bn256}
    (pre : list bn256_GT) (rest : list (option bn256_GT)) (D : bn256_G2) :
  Hash ((Some <$> pre) ++ None :: rest) D = Panicked NilDereference.
Proof.
  unfold Hash, for_lt.
  rewrite length_app, length_fmap, Nat2Z.id. cbn [length].
  replace (length pre + S (length rest))%nat
    with (length pre + (1 + length rest))%nat by lia.
  rewrite for_range_add.
  change sha256.New
    with (mjoin ((bytes_of_string ∘ GT_String) <$> take 0 pre)).
  rewrite (for_range_states _ (length pre)
             (λ j, mjoin ((bytes_of_string ∘ GT_String) <$> take j pre))).
  - cbn [mbind outcome_bind Nat.add for_range]. unfold Hash_body.
    rewrite Z.add_0_l.
    rewrite (slice_get_at (Some <$> pre) rest None (length pre))
      by (by rewrite length_fmap).
    done.
  - intros j Hj. unfold Hash_body.
    destruct (lookup_lt_is_Some_2 pre j Hj) as [aj Haj].
    rewrite (slice_get_lookup _ j (Some aj))
      by (rewrite lookup_app_l by (rewrite length_fmap; lia);
          by rewrite list_lookup_fmap, Haj).
    cbn [mbind outcome_bind mret outcome_ret deref].
    rewrite (take_S_r _ _ _ Haj), fmap_app, join_app. simpl.
    by rewrite (right_id_L [] (++)).
Qed.



(** ** Prove on an exhausted random source *)

Lemma rand_Int_drop_lookup (tape : list Z) (k : nat) :
  rand_Int (drop k tape) = (tape !! k, drop (S k) tape).
Proof.
  unfold rand_Int. destruct (tape !! k) as [z|] eqn:Hk.
  - by rewrite (drop_S _ _ _ Hk).
  - apply lookup_ge_None in Hk. by rewrite !drop_ge by lia.
Qed.

Section prove_exhausted.
Context `{BB : BBSig}.
Variables (tape : list Z) (x r : Z) (p : params).
Hypothesis Order_positive : 0 < Order.
Hypothesis u_range : 1 ≤ params_u p ≤ MaxInt64.
Hypothesis l_nonneg : 0 ≤ params_l p.
Hypothesis sigs : signatures_present p.

Let n : nat := Z.to_nat (params_l p).
Let decx : list Z := digits n (params_u p) x.

(** One round, with the three draws as they come: the round returns when
    the source delivers all three scalars and panics otherwise. *)
Lemma Prove_body_draws (j : nat) :
  (j < n)%nat →
  Prove_body p decx (Z.of_nat j) (prove_state_at tape x p j)
  = match tape !! (1 + 3 * j)%nat, tape !! (2 + 3 * j)%nat,
          tape !! (3 + 3 * j)%nat with
    | Some _, Some _, Some _ => Returned (prove_state_at tape x p (S j))
    | _, _, _ => Panicked NilDereference
    end.
Proof.
  intros Hj. unfold Prove_body, prove_state_at.
  cbn [ps_tape ps_v ps_V ps_a ps_s ps_t ps_D].
  rewrite rand_Int_drop_lookup. cbv iota beta.
  rewrite slice_set_filled by (rewrite ?length_tabulate; lia).
  cbn [mbind outcome_bind].
  assert (decx !! j = Some (digit p x j)) as Hdj.
  { apply list_lookup_lookup_total_lt. unfold decx. by rewrite length_digits. }
  rewrite (slice_get_lookup decx j _ Hdj). cbn [mbind outcome_bind].
  assert (0 ≤ digit p x j < params_u p) as Hdr.
  { pose proof (digits_range n (params_u p) x ltac:(lia)) as Hall.
    rewrite Forall_lookup in Hall. by apply (Hall j). }
  destruct (sigs _ Hdr) as [A HA]. rewrite HA. cbn [deref mbind outcome_bind].
  rewrite slice_get_prefix by (rewrite length_tabulate; lia).
  cbn [mbind outcome_bind].
  destruct (tape !! (1 + 3 * j)%nat) as [vj|] eqn:Hv; [|done].
  cbn [deref mbind outcome_bind].
  rewrite slice_set_filled
    by (unfold transcript_V; rewrite ?length_tabulate; fold n; lia).
  cbn [mbind outcome_bind].
  rewrite rand_Int_drop_lookup. cbv iota beta.
  rewrite slice_set_filled by (rewrite ?length_tabulate; lia).
  cbn [mbind outcome_bind].
  rewrite rand_Int_drop_lookup. cbv iota beta.
  rewrite slice_set_filled by (rewrite ?length_tabulate; lia).
  cbn [mbind outcome_bind].
  rewrite !slice_get_prefix
    by (unfold transcript_V; rewrite ?length_tabulate; unfold n in *; lia).
  cbn [mbind outcome_bind deref].
  change (S (1 + 3 * j)) with (2 + 3 * j)%nat.
  change (S (2 + 3 * j)) with (3 + 3 * j)%nat.
  destruct (tape !! (2 + 3 * j)%nat) as [sj|] eqn:Hs; [|done].
  cbn [deref mbind outcome_bind].
  destruct (tape !! (3 + 3 * j)%nat) as [tj|] eqn:Ht; [|done].
  cbn [deref mbind outcome_bind].
  rewrite slice_set_filled
    by (unfold transcript_a; rewrite ?length_tabulate; fold n; lia).
  cbn [mbind outcome_bind].
  rewrite Mod_pos by done.
  cbn [mbind outcome_bind mret outcome_ret].
  assert (drawn_v tape j = vj) as Hvj
    by (unfold drawn_v; by apply list_lookup_total_correct).
  assert (drawn_s tape j = sj) as Hsj
    by (unfold drawn_s; by apply list_lookup_total_correct).
  assert (drawn_t tape j = tj) as Htj
    by (unfold drawn_t; by apply list_lookup_total_correct).
  assert (signature_of p (digit p x j) = A) as HAj
    by (unfold signature_of; by rewrite HA).
  f_equal. f_equal.
  - f_equal. lia.
  - apply filled_step. rewrite lookup_tabulate by done. by rewrite Hvj.
  - apply filled_step. unfold transcript_V. fold n.
    rewrite lookup_tabulate by done. unfold blinded_signature.
    by rewrite HAj, Hvj.
  - apply filled_step. unfold transcript_a. fold n.
    rewrite lookup_tabulate by done. unfold first_round, blinded_signature.
    by rewrite HAj, Hvj, Hsj, Htj.
  - apply filled_step. rewrite lookup_tabulate by done. by rewrite Hsj.
  - apply filled_step. rewrite lookup_tabulate by done. by rewrite Htj.
  - rewrite tabulate_S, foldl_app. cbn [foldl]. unfold weighted.
    by rewrite big_Exp_nonneg, Hsj by lia.
Qed.

Lemma Prove_exhausted :
  (length tape < 1 + 3 * n)%nat →
  Prove tape x r p = Panicked NilDereference.
Proof.
  intros Hshort. unfold Prove. rewrite Decompose_digits by done.
  cbn [mbind outcome_bind]. cbv iota beta.
  rewrite !make_slice_Returned by done. cbn [mbind outcome_bind].
  destruct tape as [|m tape'] eqn:Htape; [done|]. rewrite <- Htape in *.
  assert (rand_Int tape = (Some m, drop 1 tape)) as ->
    by (by rewrite Htape).
  cbv iota beta. cbn [deref mbind outcome_bind].
  assert (drawn_m tape = m) as <- by (by rewrite Htape).
  fold n. fold decx.
  pose proof (prove_state_at_0 tape x p) as H0. fold n in H0. rewrite <- H0.
  set (j0 := ((length tape - 1) / 3)%nat).
  assert (3 * j0 ≤ length tape - 1 < 3 * j0 + 3)%nat as Hj0.
  { pose proof (Nat.div_mod_eq (length tape - 1) 3) as Hdm.
    pose proof (Nat.mod_upper_bound (length tape - 1) 3 ltac:(lia)).
    unfold j0. lia. }
  assert (1 ≤ length tape)%nat as Hlen1 by (rewrite Htape; cbn; lia).
  unfold for_lt. fold n.
  replace n with (j0 + (1 + (n - j0 - 1)))%nat at 1 by lia.
  rewrite for_range_add.
  rewrite (for_range_states (Prove_body p decx) j0 (prove_state_at tape x p)).
  - cbn [mbind outcome_bind Nat.add for_range]. rewrite Z.add_0_l.
    rewrite Prove_body_draws by lia.
    destruct (tape !! (1 + 3 * j0)%nat) as [vj|] eqn:Hv; [|done].
    destruct (tape !! (2 + 3 * j0)%nat) as [sj|] eqn:Hs; [|done].
    destruct (tape !! (3 + 3 * j0)%nat) as [tj|] eqn:Ht; [|done].
    apply lookup_lt_Some in Ht. lia.
  - intros j Hj. rewrite Prove_body_draws by lia.
    destruct (lookup_lt_is_Some_2 tape (1 + 3 * j)) as [vj ->]; [lia|].
    destruct (lookup_lt_is_Some_2 tape (2 + 3 * j)) as [sj ->]; [lia|].
    destruct (lookup_lt_is_Some_2 tape (3 + 3 * j)) as [tj ->]; [lia|].
    done.
Qed.
End prove_exhausted.

(** X15. When the random source delivers fewer than the 1 + 3·l scalars
    that [Prove] draws, [Prove] panics with a nil dereference: the errors
    of [rand.Int] are dropped, and the nil scalar is used. *)
Theorem Prove_exhausted_source_panics `{BB : BBSig}
    (tape : list Z) (x r : Z) (p : params) :
  0 < Order →
  1 ≤ params_u p ≤ MaxInt64 → 0 ≤ params_l p →
  signatures_present p →
  (length tape < 1 + 3 * Z.to_nat (params_l p))%nat →
  Prove tape x r p = Panicked NilDereference.
Proof. apply Prove_exhausted. Qed.

Lemma Prove_exhausted_source_panics_witness :
  Prove (seqZ 1000 12) 200 5 Zq.example_params = Panicked NilDereference.
Proof.
  apply (@Prove_exhausted_source_panics Zq.bn256 Zq.bb).
  - reflexivity.
  - cbn. unfold MaxInt64. lia.
  - cbn. lia.
  - exact Zq_example_signatures.
  - rewrite length_seqZ. cbn. lia.
Defined.

(** ** Verify on the proof of a value outside the range *)

Section out_of_range.
Context `{BB : BBSig} {BL : Bn256Laws}.
Variables (tape : list Z) (x r : Z) (p : params).
Hypothesis u_range : 1 ≤ params_u p ≤ MaxInt64.
Hypothesis l_nonneg : 0 ≤ params_l p.
Hypothesis x_nonneg : 0 ≤ x.
Hypothesis r_nonneg : 0 ≤ r.
Hypothesis fresh : tape_fresh tape.

Local Abbreviation G2lin := (lin (add:=G2_Add) (smul:=G2_ScalarMult)).

Let n : nat := Z.to_nat (params_l p).
Let c : Z := transcript_c tape x p.




End out_of_range.


